(** * A shallow embedding of lisp.py: tokenizer, parser and evaluator

    The development follows the source file top to bottom: the host
    conversions [int(s)] and [float(s)] that the parser relies on, the
    tokenizer, the object universe shared by the parser and the evaluator,
    the parser, the built-in table and the evaluator, followed by the
    properties proved about them.

    Text is modelled as [string], a sequence of code points below 256. *)

From Stdlib Require Import ZArith String Ascii List Bool Lia DecimalString.
From Stdlib Require Import SpecFloat.
From stdpp Require Import base gmap strings.
Import ListNotations.

Local Open Scope string_scope.
Local Open Scope list_scope.

(** ** Host conversions: [int(s)] and [float(s)] of CPython

    [is_integer] and [is_float] call the host conversions and turn a
    [ValueError] into [False]. The two conversions are modelled here from the
    grammar CPython implements for text arguments, in base ten: surrounding
    white space is stripped, one sign is allowed, and one underscore may sit
    between two digits. The optional limit of the host on the number of digits
    of an integer text is not modelled. *)
Module Py.

Definition code (c : ascii) : nat := nat_of_ascii c.

(** White space of the host among the code points below 256. *)
Definition is_space (c : ascii) : bool :=
  let n := code c in
  ((9 <=? n)%nat && (n <=? 13)%nat) || ((28 <=? n)%nat && (n <=? 32)%nat)
  || (n =? 133)%nat || (n =? 160)%nat.

Definition is_digit (c : ascii) : bool :=
  let n := code c in (48 <=? n)%nat && (n <=? 57)%nat.

Definition digit_value (c : ascii) : Z := Z.of_nat (code c) - 48.

Definition is_char (n : nat) (c : ascii) : bool := (code c =? n)%nat.

Definition is_underscore : ascii -> bool := is_char 95.
Definition is_plus : ascii -> bool := is_char 43.
Definition is_minus : ascii -> bool := is_char 45.
Definition is_dot : ascii -> bool := is_char 46.

Fixpoint lstrip (cs : list ascii) : list ascii :=
  match cs with
  | c :: rest => if is_space c then lstrip rest else cs
  | [] => []
  end.

Definition strip (cs : list ascii) : list ascii :=
  rev (lstrip (rev (lstrip cs))).

(** An optional sign: [true] for a minus. *)
Definition split_sign (cs : list ascii) : bool * list ascii :=
  match cs with
  | c :: rest =>
      if is_minus c then (true, rest)
      else if is_plus c then (false, rest)
      else (false, cs)
  | [] => (false, cs)
  end.

(** digitpart ::= digit (["_"] digit)*, covering the whole of [cs];
    [after_digit] tells whether the previous character was a digit. *)
Fixpoint digitpart (cs : list ascii) (acc : Z) (after_digit : bool) : option Z :=
  match cs with
  | [] => if after_digit then Some acc else None
  | c :: rest =>
      if is_digit c then digitpart rest (10 * acc + digit_value c)%Z true
      else if is_underscore c && after_digit then digitpart rest acc false
      else None
  end.

(** [int(s)]: [None] stands for [ValueError]. *)
Definition int (s : string) : option Z :=
  let '(neg, ds) := split_sign (strip (list_ascii_of_string s)) in
  match digitpart ds 0%Z false with
  | Some n => Some (if neg then (- n)%Z else n)
  | None => None
  end.

(** *** Floats

    A host float is an IEEE 754 binary64 number, here a [spec_float] of
    precision 53 and maximal exponent 1024. *)
Definition prec : Z := 53.
Definition emax : Z := 1024.

(** The binary64 number nearest to [m * 10 ^ e] (ties to even), for [m >= 0];
    too large a value becomes an infinity, as in the host. *)
Definition of_decimal (neg : bool) (m e : Z) : spec_float :=
  match m with
  | Z0 => S754_zero neg
  | Zpos p =>
      match e with
      | Zneg k =>
          let '(q, e', l) := SFdiv_core_binary prec emax m 0 (10 ^ Zpos k)%Z 0 in
          binary_round_aux prec emax neg q e' l
      | _ => binary_round prec emax neg (Z.to_pos (m * 10 ^ e)%Z) 0
      end
  | Zneg _ => S754_nan
  end.

(** Underscores are dropped, each of them must stand between two digits. *)
Fixpoint drop_underscores (cs : list ascii) (prev : option ascii)
    : option (list ascii) :=
  match cs with
  | [] =>
      match prev with
      | Some p => if is_underscore p then None else Some []
      | None => Some []
      end
  | c :: rest =>
      if is_underscore c then
        match prev with
        | Some p => if is_digit p then drop_underscores rest (Some c) else None
        | None => None
        end
      else
        let ok :=
          match prev with
          | Some p => negb (is_underscore p) || is_digit c
          | None => true
          end in
        if ok then option_map (cons c) (drop_underscores rest (Some c)) else None
  end.

Definition lower (c : ascii) : ascii :=
  let n := code c in
  if (65 <=? n)%nat && (n <=? 90)%nat then ascii_of_nat (n + 32) else c.

Definition lower_string (cs : list ascii) : string :=
  string_of_list_ascii (map lower cs).

(** The longest prefix of digits, its value, and what follows it. *)
Fixpoint take_digits (cs : list ascii) (acc : Z) (n : nat) : Z * nat * list ascii :=
  match cs with
  | c :: rest =>
      if is_digit c then take_digits rest (10 * acc + digit_value c)%Z (S n)
      else (acc, n, cs)
  | [] => (acc, n, [])
  end.

(** exponent ::= ("e" | "E") [sign] digit+, covering the whole of [cs];
    no exponent at all counts as zero. *)
Definition exponent (cs : list ascii) : option Z :=
  match cs with
  | [] => Some 0%Z
  | c :: rest =>
      if is_char 101 c || is_char 69 c then
        let '(neg, ds) := split_sign rest in
        match take_digits ds 0%Z 0 with
        | (_, O, _) => None
        | (x, S _, []) => Some (if neg then (- x)%Z else x)
        | (_, S _, _ :: _) => None
        end
      else None
  end.

(** number ::= [digit+] "." digit+ | digit+ ["."], then the exponent. *)
Definition decimal (neg : bool) (cs : list ascii) : option spec_float :=
  let '(ip, ni, after_int) := take_digits cs 0%Z 0 in
  let '(m, nf, after_frac) :=
    match after_int with
    | c :: rest =>
        if is_dot c then take_digits rest ip 0 else (ip, O, after_int)
    | [] => (ip, O, after_int)
    end in
  match (ni + nf)%nat with
  | O => None
  | S _ =>
      match exponent after_frac with
      | Some x => Some (of_decimal neg m (x - Z.of_nat nf))
      | None => None
      end
  end.

(** [float(s)]: [None] stands for [ValueError]. *)
Definition float (s : string) : option spec_float :=
  match drop_underscores (strip (list_ascii_of_string s)) None with
  | None => None
  | Some cs =>
      let '(neg, body) := split_sign cs in
      let word := lower_string body in
      if String.eqb word "inf" || String.eqb word "infinity" then
        Some (S754_infinity neg)
      else if String.eqb word "nan" then Some S754_nan
      else decimal neg body
  end.

End Py.

Definition is_integer (s : string) : bool :=
  match Py.int s with Some _ => true | None => false end.

Definition is_float (s : string) : bool :=
  match Py.float s with Some _ => true | None => false end.

(** The single quote. *)
Definition is_quote (c : ascii) : bool := Py.is_char 39 c.

(** [len(s) >= 2 and s[0] == "'" and s[-1] == "'"] *)
Definition is_string (s : string) : bool :=
  let cs := list_ascii_of_string s in
  (2 <=? length cs)%nat
  && match cs with c :: _ => is_quote c | [] => false end
  && match rev cs with c :: _ => is_quote c | [] => false end.

(** ** Tokenizer *)

(** [char in ['\t', '\n', ' ']] *)
Definition is_blank (c : ascii) : bool :=
  Py.is_char 9 c || Py.is_char 10 c || Py.is_char 32 c.

(** [char in ['(', ')']] *)
Definition is_paren (c : ascii) : bool :=
  Py.is_char 40 c || Py.is_char 41 c.

(** [i < len(s) - 1 and s[i+1] in ['(', ')', ' ', '\n', '\t']] *)
Definition next_delimits (rest : string) : bool :=
  match rest with
  | String c _ => is_paren c || is_blank c
  | EmptyString => false
  end.

(** Truth value of a text: it is not empty. *)
Definition nonempty (s : string) : bool :=
  match s with EmptyString => false | String _ _ => true end.

Definition add_char (word : string) (c : ascii) : string :=
  word +:+ String c EmptyString.

(** The [for] loop of [tokenize] from one position on, with the three local
    variables of the function, followed by the flush after the loop. *)
Fixpoint tokenize_loop (s : string) (ret : list string) (in_string : bool)
    (current_word : string) : list string :=
  match s with
  | EmptyString =>
      if nonempty current_word then ret ++ [current_word] else ret
  | String char rest =>
      if is_quote char then
        if negb in_string then
          tokenize_loop rest ret true (add_char current_word char)
        else
          tokenize_loop rest (ret ++ [add_char current_word char]) false EmptyString
      else if in_string then
        tokenize_loop rest ret in_string (add_char current_word char)
      else if is_blank char then
        if nonempty current_word && negb in_string then
          tokenize_loop rest (ret ++ [current_word]) in_string EmptyString
        else
          tokenize_loop rest ret in_string current_word
      else if is_paren char then
        if nonempty current_word && negb in_string then
          tokenize_loop rest ((ret ++ [current_word]) ++ [String char EmptyString])
            in_string EmptyString
        else
          tokenize_loop rest (ret ++ [String char EmptyString]) in_string current_word
      else
        let current_word := add_char current_word char in
        if next_delimits rest && negb in_string then
          tokenize_loop rest (ret ++ [current_word]) in_string EmptyString
        else
          tokenize_loop rest ret in_string current_word
  end.

Definition tokenize (s : string) : list string :=
  tokenize_loop s [] false EmptyString.

(** ** Objects *)

(** The functions of the host module [operator] that the base environment
    holds. *)
Module operator.
Inductive fn : Set :=
  | add | sub | mul | truediv | gt | ge | lt | le | eq | ne.
End operator.

(** The callables of the base environment: the host operators, then the
    functions behind [null?], [print], [list], [car], [cdr], [cons],
    [length] and [append]. *)
Inductive builtin : Set :=
  | Operator (op : operator.fn)
  | Null | Print | MakeList | Car | Cdr | Cons | Len | Append.

(** The source is dynamically typed: the parser's nodes, the evaluator's
    values and what [quote] returns live in one universe of host objects.
    [OStr] is a host text, [OString] and [OSymbol] are the instances of the
    classes [String] and [Symbol], [OLambda] an instance of [Lambda] with
    its two fields, [OBuiltin] one of the callables of the base environment. *)
#[warnings="-register-all"]
Inductive obj : Type :=
  | OInt (n : Z)
  | OFloat (f : spec_float)
  | OBool (b : bool)
  | OStr (s : string)
  | ONone
  | OString (value : string)
  | OSymbol (value : string)
  | OList (items : list obj)
  | OLambda (arguments code : obj)
  | OBuiltin (b : builtin).

(** ** Outcomes

    A call of the source returns, or ends the process through [fail] (the
    message is printed, then [sys.exit(-1)]), or lets a host exception
    escape. [OutOfFuel] is no outcome of the program: it marks a run of the
    model that needs more fuel than it was given. *)
Inductive pyexc : Set :=
  | TypeError | AttributeError | ValueError | IndexError
  | ZeroDivisionError | OverflowError.

Inductive failure : Type :=
  | Message (text : string)
  | CannotApplyNonFunction (fn : obj).

Inductive outcome (A : Type) : Type :=
  | Ok (a : A)
  | Fail (f : failure)
  | Raise (e : pyexc)
  | OutOfFuel.

Arguments Ok {A} a.
Arguments Fail {A} f.
Arguments Raise {A} e.
Arguments OutOfFuel {A}.

Definition fail {A : Type} (s : string) : outcome A := Fail (Message s).

(** Sequencing: the first outcome that is not a return ends the run. *)
Definition bind {A B : Type} (m : outcome A) (k : A -> outcome B) : outcome B :=
  match m with
  | Ok a => k a
  | Fail f => Fail f
  | Raise e => Raise e
  | OutOfFuel => OutOfFuel
  end.

Notation "'do' x <- m 'in' k" := (bind m (fun x => k))
  (at level 10, x pattern, m at level 200, k at level 200).

(** ** Parser *)

(** [token[1:-1]] *)
Definition strip_quotes (token : string) : string :=
  string_of_list_ascii (removelast (tl (list_ascii_of_string token))).

(** The [for] loop of [do_parse] with its local [ret]; the tokens left in the
    shared iterator are returned with the list. One unit of fuel is spent
    for each token taken from the iterator. *)
Fixpoint do_parse_loop (fuel : nat) (ret : list obj) (tokens : list string)
    : outcome (list obj * list string) :=
  match fuel with
  | O => OutOfFuel
  | S fuel =>
      match tokens with
      | [] => fail "Missing closing parenthesis"
      | token :: tokens =>
          if String.eqb token "(" then
            do (sub, tokens) <- do_parse_loop fuel [] tokens in
            do_parse_loop fuel (ret ++ [OList sub]) tokens
          else if String.eqb token ")" then
            Ok (ret, tokens)
          else if is_integer token then
            match Py.int token with
            | Some n => do_parse_loop fuel (ret ++ [OInt n]) tokens
            | None => Raise ValueError
            end
          else if is_float token then
            match Py.float token with
            | Some f => do_parse_loop fuel (ret ++ [OFloat f]) tokens
            | None => Raise ValueError
            end
          else if is_string token then
            do_parse_loop fuel (ret ++ [OString (strip_quotes token)]) tokens
          else
            do_parse_loop fuel (ret ++ [OSymbol token]) tokens
      end
  end.

Definition do_parse (fuel : nat) (tokens : list string)
    : outcome (list obj * list string) :=
  do_parse_loop fuel [] tokens.

(** The iterator holds [length itert] tokens: that many steps and one more
    are enough for [do_parse], see [do_parse_loop_fuel]. *)
Definition parse (tokens : list string) : outcome obj :=
  match tokens with
  | [] => fail "Empty expression"
  | token :: itert =>
      if negb (String.eqb token "(") then
        fail ("Unexpected token " +:+ token)
      else
        do (ret, _) <- do_parse (S (length itert)) itert in
        Ok (OList ret)
  end.

(** ** Environments

    An environment is a host [dict]. Every read of it (the lookup of a
    [Symbol]) and every [define] uses a text key; a key that is no text can
    only be written, when a raw parameter is bound, and is never read
    afterwards. The model keeps the bindings under text keys. *)
Abbreviation env := (gmap string obj).

(** ** Built-in functions *)

(** Truth value of an object, as the conditional expression of [car] tests it. *)
Definition truthy (o : obj) : bool :=
  match o with
  | ONone => false
  | OBool b => b
  | OInt n => negb (n =? 0)%Z
  | OFloat (S754_zero _) => false
  | OStr s => nonempty s
  | OList [] => false
  | _ => true
  end.

(** [len(o)]: lists and texts have a length. *)
Definition len (o : obj) : outcome nat :=
  match o with
  | OList items => Ok (length items)
  | OStr s => Ok (String.length s)
  | _ => Raise TypeError
  end.

(** The items of an object when it is iterated over or indexed. *)
Definition chars (s : string) : list obj :=
  map (fun c => OStr (String c EmptyString)) (list_ascii_of_string s).

Definition items_of (o : obj) : outcome (list obj) :=
  match o with
  | OList items => Ok items
  | OStr s => Ok (chars s)
  | _ => Raise TypeError
  end.

(** [lst[0] if lst else None] *)
Definition car (lst : obj) : outcome obj :=
  if truthy lst then
    do items <- items_of lst in
    match items with
    | x :: _ => Ok x
    | [] => Raise IndexError
    end
  else Ok ONone.

(** [lst[1:] if len(lst) > 1 else []] *)
Definition cdr (lst : obj) : outcome obj :=
  do n <- len lst in
  if (1 <? n)%nat then
    match lst with
    | OList items => Ok (OList (tl items))
    | OStr (String _ rest) => Ok (OStr rest)
    | _ => Raise TypeError
    end
  else Ok (OList []).

(** [[x] + (lst if isinstance(lst, list) else [lst])] *)
Definition cons (x lst : obj) : obj :=
  OList ([x] ++ match lst with OList items => items | _ => [lst] end).

(** [[item for lst in lsts for item in lst]] *)
Fixpoint append (lsts : list obj) : outcome (list obj) :=
  match lsts with
  | [] => Ok []
  | lst :: lsts =>
      do items <- items_of lst in
      do more <- append lsts in
      Ok (items ++ more)
  end.

Section Evaluator.

(** The ten functions of the host module [operator] are no code of this
    repository: the evaluator takes their behaviour on two arguments as a
    parameter. *)
Variable host_operator : operator.fn -> obj -> obj -> outcome obj.

(** The call of a callable of the base environment with the argument values
    spread; a wrong number of arguments is a [TypeError] of the host. What
    [print] writes to the standard output is not part of the model. *)
Definition call_builtin (fn : builtin) (args : list obj) : outcome obj :=
  match fn, args with
  | Operator op, [a; b] => host_operator op a b
  | Null, [x] => Ok (OBool match x with ONone => true | _ => false end)
  | Print, [x] => Ok ONone
  | MakeList, _ => Ok (OList args)
  | Car, [lst] => car lst
  | Cdr, [lst] => cdr lst
  | Cons, [x; lst] => Ok (cons x lst)
  | Len, [x] => do n <- len x in Ok (OInt (Z.of_nat n))
  | Append, lsts => do items <- append lsts in Ok (OList items)
  | _, _ => Raise TypeError
  end.

(** ** Evaluator *)

(** The text of a count, as [format] writes it. *)
Definition decimal (n : nat) : string := NilZero.string_of_uint (Nat.to_uint n).

(** The loop of [apply_fn] that binds the arguments to the parameters:
    a [Symbol] is bound under its name, a raw text under itself, a raw list
    cannot be a key, and any other raw value is a key that is never read. *)
Fixpoint bind_parameters (arguments args : list obj) (new_env : env) : outcome env :=
  match arguments with
  | [] => Ok new_env
  | param :: arguments =>
      match args with
      | [] => Raise IndexError
      | arg :: args =>
          match param with
          | OSymbol value => bind_parameters arguments args (<[value := arg]> new_env)
          | OStr param_name =>
              bind_parameters arguments args (<[param_name := arg]> new_env)
          | OList _ => Raise TypeError
          | _ => bind_parameters arguments args new_env
          end
      end
  end.

(** [apply_fn], given the evaluator [ev] it calls for the body. The
    environment of the caller is read, to be copied, and never written. *)
Definition apply_fn_with (ev : obj -> env -> outcome (obj * env))
    (fn : obj) (args : list obj) (environment : env) : outcome obj :=
  match fn with
  | OBuiltin b => call_builtin b args
  | OLambda arguments code =>
      let new_env := environment in
      do arguments <- items_of arguments in
      if negb (length args =? length arguments)%nat then
        fail ("Mismatched number of arguments to lambda: expected "
              +:+ decimal (length arguments) +:+ ", got " +:+ decimal (length args))
      else
        do new_env <- bind_parameters arguments args new_env in
        do (value, _) <- ev code new_env in
        Ok value
  | _ => Fail (CannotApplyNonFunction fn)
  end.

(** [[eval_expr(arg, environment) for arg in exprs]], left to right. *)
Fixpoint eval_each (ev : obj -> env -> outcome (obj * env))
    (exprs : list obj) (environment : env) : outcome (list obj * env) :=
  match exprs with
  | [] => Ok ([], environment)
  | arg :: exprs =>
      do (value, environment) <- ev arg environment in
      do (values, environment) <- eval_each ev exprs environment in
      Ok (value :: values, environment)
  end.

(** The loop of [begin]. *)
Fixpoint eval_begin (ev : obj -> env -> outcome (obj * env))
    (exprs : list obj) (result : obj) (environment : env) : outcome (obj * env) :=
  match exprs with
  | [] => Ok (result, environment)
  | ex :: exprs =>
      do (result, environment) <- ev ex environment in
      eval_begin ev exprs result environment
  end.

(** A function call: the head, then the arguments, then [apply_fn]. *)
Definition eval_call (ev : obj -> env -> outcome (obj * env))
    (head : obj) (rest : list obj) (environment : env) : outcome (obj * env) :=
  do (fn, environment) <- ev head environment in
  do (args, environment) <- eval_each ev rest environment in
  do value <- apply_fn_with ev fn args environment in
  Ok (value, environment).

(** [expr[1].value] in [define]: only a [Symbol] and a [String] have the
    attribute. *)
Definition value_of (o : obj) : outcome string :=
  match o with
  | OSymbol value | OString value => Ok value
  | _ => Raise AttributeError
  end.

(** The body of [eval_expr(expr, environment)], given the evaluator [ev] it
    calls for the expressions inside [expr]: the value returned and the
    environment as the call leaves it. [match rest with ...] reads [expr[1]],
    [expr[2]] and [expr[3]] and tests [len(expr)] in one step. *)
Definition eval_expr_with (ev : obj -> env -> outcome (obj * env))
    (expr : obj) (environment : env) : outcome (obj * env) :=
  match expr with
  | OInt _ | OBool _ | OFloat _ => Ok (expr, environment)
  | OStr _ => Ok (expr, environment)
  | OString value => Ok (OStr value, environment)
  | OSymbol value =>
      match environment !! value with
      | None => fail ("Couldn't find symbol " +:+ value)
      | Some v => Ok (v, environment)
      end
  | OList [] => Ok (OList [], environment)
  | OList (OSymbol value :: rest) =>
      if String.eqb value "lambda" then
        match rest with
        | arg_names :: code :: _ => Ok (OLambda arg_names code, environment)
        | _ => fail "Lambda requires arguments and body"
        end
      else if String.eqb value "if" then
        match rest with
        | condition :: then_clause :: more =>
            let else_clause := match more with [e] => e | _ => ONone end in
            do (c, environment) <- ev condition environment in
            match c with
            | OBool false =>
                match else_clause with
                | ONone => Ok (ONone, environment)
                | _ => ev else_clause environment
                end
            | _ => ev then_clause environment
            end
        | _ => fail "If requires at least condition and then clause"
        end
      else if String.eqb value "define" then
        match rest with
        | [target; value_expr] =>
            do name <- value_of target in
            do (value, environment) <- ev value_expr environment in
            Ok (value, <[name := value]> environment)
        | _ => fail "Define requires name and value"
        end
      else if String.eqb value "begin" then
        eval_begin ev rest ONone environment
      else if String.eqb value "quote" then
        match rest with
        | [e] => Ok (e, environment)
        | _ => fail "Quote requires exactly one argument"
        end
      else
        eval_call ev (OSymbol value) rest environment
  | OList (head :: rest) => eval_call ev head rest environment
  | ONone | OLambda _ _ | OBuiltin _ => Ok (expr, environment)
  end.

(** [eval_expr] with a bound on the depth of the calls: each call of
    [eval_expr] inside another one spends one unit of fuel. *)
Fixpoint eval_expr (fuel : nat) : obj -> env -> outcome (obj * env) :=
  match fuel with
  | O => fun _ _ => OutOfFuel
  | S fuel => eval_expr_with (eval_expr fuel)
  end.

Definition apply_fn (fuel : nat) (fn : obj) (args : list obj) (environment : env)
    : outcome obj :=
  apply_fn_with (eval_expr fuel) fn args environment.

(** ** Base environment *)
Definition base_environment : env :=
  list_to_map
    [ ("+", OBuiltin (Operator operator.add));
      ("-", OBuiltin (Operator operator.sub));
      ("*", OBuiltin (Operator operator.mul));
      ("/", OBuiltin (Operator operator.truediv));
      (">", OBuiltin (Operator operator.gt));
      (">=", OBuiltin (Operator operator.ge));
      ("<", OBuiltin (Operator operator.lt));
      ("<=", OBuiltin (Operator operator.le));
      ("=", OBuiltin (Operator operator.eq));
      ("!=", OBuiltin (Operator operator.ne));
      ("nil", ONone); ("null?", OBuiltin Null); ("print", OBuiltin Print);
      ("list", OBuiltin MakeList); ("car", OBuiltin Car); ("cdr", OBuiltin Cdr);
      ("cons", OBuiltin Cons); ("length", OBuiltin Len);
      ("append", OBuiltin Append) ].

(** Text to value: [eval_expr(parse(tokenize(s)), environment)]. *)
Definition run (fuel : nat) (s : string) (environment : env) : outcome (obj * env) :=
  do parsed <- parse (tokenize s) in
  eval_expr fuel parsed environment.

(** The value of a run, without the environment it leaves. *)
Definition value_of_run (r : outcome (obj * env)) : outcome obj :=
  do (value, _) <- r in Ok value.

End Evaluator.

(** ** Notions used in the statements *)

(** Whether the scan of [s], entered with the flag [in_string], leaves the
    flag set: every single quote toggles it. *)
Fixpoint in_string_after (s : string) (in_string : bool) : bool :=
  match s with
  | EmptyString => in_string
  | String c rest =>
      in_string_after rest (if is_quote c then negb in_string else in_string)
  end.

Fixpoint ends_with_quote (s : string) : bool :=
  match s with
  | EmptyString => false
  | String c EmptyString => is_quote c
  | String _ rest => ends_with_quote rest
  end.

Definition delimits (c : ascii) : bool := is_paren c || is_blank c.

(** A character that reaches the last branch of the loop. *)
Definition plain (c : ascii) : bool :=
  negb (is_quote c) && negb (is_blank c) && negb (is_paren c).

(** The floats 3.0 and 1000.0. *)
Definition three : spec_float := S754_finite false 6755399441055744 (-51).
Definition thousand : spec_float := S754_finite false 8796093022208000 (-43).

(** [ev2] gives the outcome of [ev1] wherever [ev1] has enough fuel. *)
Definition extends (ev1 ev2 : obj -> env -> outcome (obj * env)) : Prop :=
  forall expr environment,
    ev1 expr environment <> OutOfFuel -> ev2 expr environment = ev1 expr environment.

(** The list whose head is the Symbol [keyword]. *)
Definition form (keyword : string) (rest : list obj) : obj :=
  OList (OSymbol keyword :: rest).

(** A head that [eval_expr] takes for the keyword of a special form. *)
Definition is_special_form (head : obj) : bool :=
  match head with
  | OSymbol value =>
      String.eqb value "lambda" || String.eqb value "if" || String.eqb value "define"
      || String.eqb value "begin" || String.eqb value "quote"
  | _ => false
  end.

(** The environment a call builds for parameters that are all Symbols. *)
Definition bound (names : list string) (args : list obj) (environment : env) : env :=
  foldl (fun new_env p => <[p.1 := p.2]> new_env) environment (zip names args).

(** *** Notions for the tokenizer *)

(** No single quote in [s]. *)
Fixpoint no_quote (s : string) : bool :=
  match s with
  | EmptyString => true
  | String c rest => negb (is_quote c) && no_quote rest
  end.

(** Only characters that are neither a quote, nor a blank, nor a
    parenthesis. *)
Fixpoint all_plain (s : string) : bool :=
  match s with
  | EmptyString => true
  | String c rest => plain c && all_plain rest
  end.

(** A parenthesis token, or a word of plain characters. *)
Definition paren_or_word (token : string) : bool :=
  String.eqb token "(" || String.eqb token ")"
  || (nonempty token && all_plain token).

(** The text [s] without the blanks that stand outside a string, when the
    scan enters [s] with the flag [in_string]. *)
Fixpoint without_blanks (s : string) (in_string : bool) : string :=
  match s with
  | EmptyString => EmptyString
  | String c rest =>
      if is_quote c then String c (without_blanks rest (negb in_string))
      else if in_string then String c (without_blanks rest in_string)
      else if is_blank c then without_blanks rest in_string
      else String c (without_blanks rest in_string)
  end.

(** The tokens written one after the other. *)
Definition join (tokens : list string) : string :=
  fold_right String.append EmptyString tokens.

(** The text of a string literal whose content is [body]. *)
Definition literal (body : string) : string :=
  String "'" (body +:+ "'").

(** *** Notions for the parser *)




(** *** Notions for the evaluator *)

(** No Symbol [define] anywhere in an expression. *)
Fixpoint no_define (o : obj) : bool :=
  match o with
  | OSymbol name => negb (String.eqb name "define")
  | OList items => forallb no_define items
  | _ => true
  end.

(** A value that [apply_fn] can apply: a callable of the base environment or
    an instance of [Lambda]. *)
Definition applicable (fn : obj) : bool :=
  match fn with
  | OBuiltin _ | OLambda _ _ => true
  | _ => false
  end.

(** An object with a length: a list or a host text. *)
Definition sized (o : obj) : bool :=
  match o with
  | OList _ | OStr _ => true
  | _ => false
  end.

Definition is_list (o : obj) : bool :=
  match o with
  | OList _ => true
  | _ => false
  end.

(** [ev] never removes a binding. *)
Definition keeps_bindings (ev : obj -> env -> outcome (obj * env)) : Prop :=
  forall expr environment value environment',
    ev expr environment = Ok (value, environment') ->
    dom environment ⊆ dom environment'.

(** [ev] leaves the environment alone on expressions without [define]. *)
Definition frames (ev : obj -> env -> outcome (obj * env)) : Prop :=
  forall expr environment value environment',
    no_define expr = true ->
    ev expr environment = Ok (value, environment') ->
    environment' = environment.

(** An environment that holds the closure of [(lambda (x) (define y x))]
    under the name [f]. *)
Definition closure_environment : env :=
  <["f" := OLambda (OList [OSymbol "x"])
                   (form "define" [OSymbol "y"; OSymbol "x"])]> ∅.

(** An environment that binds [list] only. *)
Definition list_environment : env := <["list" := OBuiltin MakeList]> ∅.

(** Inputs of the examples: an environment that binds [null?] only, one that
    binds the keyword [quote] to a function, the call [(null? 0)], whose
    value is the Boolean false, and the body [(define y x)]. *)
Definition null_environment : env := <["null?" := OBuiltin Null]> ∅.
Definition shadowing_environment : env := <["quote" := OBuiltin MakeList]> ∅.
Definition is_null_0 : obj := OList [OSymbol "null?"; OInt 0].
Definition define_y_x : obj := form "define" [OSymbol "y"; OSymbol "x"].

(** ** A host for the examples

    The operators of the host on two integers, whose arithmetic is exact.
    The division, which makes a float, and every other kind of operand are
    left open: there this instance answers [OutOfFuel], which is no outcome
    of the program. *)
Definition integer_operator (op : operator.fn) (a b : obj) : outcome obj :=
  match a, b with
  | OInt x, OInt y =>
      match op with
      | operator.add => Ok (OInt (x + y))
      | operator.sub => Ok (OInt (x - y))
      | operator.mul => Ok (OInt (x * y))
      | operator.truediv => OutOfFuel
      | operator.gt => Ok (OBool (x >? y)%Z)
      | operator.ge => Ok (OBool (x >=? y)%Z)
      | operator.lt => Ok (OBool (x <? y)%Z)
      | operator.le => Ok (OBool (x <=? y)%Z)
      | operator.eq => Ok (OBool (x =? y)%Z)
      | operator.ne => Ok (OBool (negb (x =? y)%Z))
      end
  | _, _ => OutOfFuel
  end.

(** * Properties *)

(** ** Tokenizer *)

Module Lexer.

Lemma delimits_not_quote c : delimits c = true -> is_quote c = false.
Proof.
  unfold delimits, is_paren, is_blank, is_quote, Py.is_char.
  destruct (Nat.eqb_spec (Py.code c) 39) as [->|]; [discriminate | reflexivity].
Qed.

Lemma nonempty_add_char w c : nonempty (add_char w c) = true.
Proof. unfold add_char. destruct w; reflexivity. Qed.

(** The tokens already emitted stay in front of those emitted later. *)
Lemma tokenize_loop_ret s : forall ret b cw,
  tokenize_loop s ret b cw = ret ++ tokenize_loop s [] b cw.
Proof.
  induction s as [|c s IH]; intros ret b cw; simpl.
  - destruct (nonempty cw); [reflexivity | now rewrite app_nil_r].
  - repeat match goal with
           | |- context [if ?x then _ else _] => destruct x
           end;
      try apply IH;
      rewrite IH; symmetry; rewrite IH; symmetry;
      rewrite <- ?app_assoc; reflexivity.
Qed.

Lemma tokenize_loop_delimiter d s ret cw :
  delimits d = true ->
  tokenize_loop (String d s) ret false cw
  = (if nonempty cw then ret ++ [cw] else ret)
    ++ (if is_paren d then [String d EmptyString] else []) ++ tokenize s.
Proof.
  intros Hd. pose proof (delimits_not_quote _ Hd) as Hq.
  unfold tokenize. simpl. rewrite Hq. unfold delimits in Hd.
  destruct (is_blank d) eqn:Hb; simpl.
  - assert (is_paren d = false) as ->.
    { unfold is_paren, is_blank, Py.is_char in *.
      repeat match goal with
             | |- context [Nat.eqb ?a ?b] => destruct (Nat.eqb_spec a b)
             | H : context [Nat.eqb ?a ?b] |- _ => destruct (Nat.eqb_spec a b)
             end; simpl in *; congruence. }
    rewrite !andb_true_r. destruct cw; simpl; apply tokenize_loop_ret.
  - rewrite orb_false_r in Hd. rewrite Hd, !andb_true_r.
    destruct cw; simpl nonempty; cbv iota; rewrite tokenize_loop_ret;
      rewrite <- ?app_assoc; reflexivity.
Qed.

Lemma next_delimits_app c s t :
  next_delimits (String c s +:+ t) = next_delimits (String c s).
Proof. reflexivity. Qed.

(** The text before a white-space character or a parenthesis that stands
    outside a string is tokenized on its own. *)
Lemma tokenize_loop_split d s2 : delimits d = true ->
  forall s1 ret b cw,
  in_string_after s1 b = false ->
  tokenize_loop (s1 +:+ String d s2) ret b cw
  = tokenize_loop s1 ret b cw ++ tokenize (String d s2).
Proof.
  intros Hd. induction s1 as [|c s1 IH]; intros ret b cw Hb.
  - simpl in Hb. subst b. change (EmptyString +:+ String d s2) with (String d s2).
    rewrite tokenize_loop_delimiter by assumption.
    unfold tokenize at 2. rewrite tokenize_loop_delimiter by assumption.
    simpl. reflexivity.
  - change (String c s1 +:+ String d s2) with (String c (s1 +:+ String d s2)).
    simpl in Hb. simpl tokenize_loop.
    destruct (is_quote c).
    { destruct b; simpl in *; now apply IH. }
    destruct b; [now apply IH |].
    destruct (is_blank c).
    { destruct (nonempty cw); simpl; now apply IH. }
    destruct (is_paren c).
    { destruct (nonempty cw); simpl; now apply IH. }
    destruct s1 as [|c' s1].
    + change (EmptyString +:+ String d s2) with (String d s2).
      change (next_delimits (String d s2)) with (delimits d). rewrite Hd.
      change (next_delimits EmptyString) with false. cbn [andb negb].
      rewrite tokenize_loop_ret.
      change (tokenize_loop EmptyString ret false (add_char cw c))
        with (if nonempty (add_char cw c) then ret ++ [add_char cw c] else ret).
      rewrite nonempty_add_char. reflexivity.
    + rewrite next_delimits_app.
      destruct (next_delimits (String c' s1) && negb false); now apply IH.
Qed.

(** The text after a quote that closes a string is tokenized on its own. *)
Lemma tokenize_loop_after_string s2 :
  forall s1 ret b cw,
  ends_with_quote s1 = true ->
  in_string_after s1 b = false ->
  tokenize_loop (s1 +:+ s2) ret b cw = tokenize_loop s1 ret b cw ++ tokenize s2.
Proof.
  induction s1 as [|c s1 IH]; intros ret b cw He Hb; [discriminate |].
  change (String c s1 +:+ s2) with (String c (s1 +:+ s2)).
  destruct s1 as [|c' s1].
  - simpl in He, Hb. rewrite He in Hb. destruct b; [| discriminate].
    change (EmptyString +:+ s2) with s2.
    simpl. rewrite He. simpl. unfold tokenize. apply tokenize_loop_ret.
  - assert (ends_with_quote (String c' s1) = true) as He' by exact He.
    assert (next_delimits (String c' s1 +:+ s2) = next_delimits (String c' s1))
      as Hn by reflexivity.
    remember (String c' s1) as t eqn:Ht. clear Ht He.
    simpl in Hb. simpl tokenize_loop. rewrite Hn.
    destruct (is_quote c).
    { destruct b; simpl in *; now apply IH. }
    destruct b; [now apply IH |].
    destruct (is_blank c).
    { destruct (nonempty cw); simpl; now apply IH. }
    destruct (is_paren c).
    { destruct (nonempty cw); simpl; now apply IH. }
    destruct (next_delimits t && negb false); now apply IH.
Qed.

(** C3, as amended. The lookahead flushes the pending word as soon as the
    next character is white space or a parenthesis. Hence the texts on the
    two sides of a white-space character or of a parenthesis that stands
    outside a string are tokenized independently of each other: no token
    spans it, and a parenthesis is a token of its own. The same holds for
    the texts before and after a quote that closes a string. *)
Theorem tokens_never_fused_across_delimiters :
  (forall c d rest ret cw,
      plain c = true -> delimits d = true ->
      tokenize_loop (String c (String d rest)) ret false cw
      = tokenize_loop (String d rest) (ret ++ [add_char cw c]) false EmptyString)
  /\ (forall s1 d s2,
      in_string_after s1 false = false -> delimits d = true ->
      tokenize (s1 +:+ String d s2)
      = tokenize s1 ++ (if is_paren d then [String d EmptyString] else [])
        ++ tokenize s2)
  /\ (forall s1 s2,
      ends_with_quote s1 = true -> in_string_after s1 false = false ->
      tokenize (s1 +:+ s2) = tokenize s1 ++ tokenize s2).
Proof.
  repeat split.
  - intros c d rest ret cw Hc Hd. unfold plain in Hc.
    apply andb_prop in Hc as [Hc Hp]. apply andb_prop in Hc as [Hq Hb].
    apply negb_true_iff in Hq, Hb, Hp.
    remember (String d rest) as t eqn:Ht. simpl tokenize_loop.
    rewrite Hq, Hb, Hp. subst t.
    change (next_delimits (String d rest)) with (delimits d). now rewrite Hd.
  - intros s1 d s2 Hs Hd. unfold tokenize.
    rewrite tokenize_loop_split by assumption.
    unfold tokenize. now rewrite tokenize_loop_delimiter by assumption.
  - intros s1 s2 He Hs. unfold tokenize at 1.
    now apply tokenize_loop_after_string.
Qed.

Lemma tokens_never_fused_across_delimiters_witness :
  (plain "b" = true /\ delimits "(" = true
   /\ tokenize_loop "b(c" ["a"] false "a" = tokenize_loop "(c" ["a"; "ab"] false "")
  /\ (in_string_after "(f 'a b'" false = false /\ delimits ")" = true
      /\ tokenize "(f 'a b') x" = ["("; "f"; "'a b'"] ++ [")"] ++ ["x"])
  /\ (ends_with_quote "'a b'" = true /\ in_string_after "'a b'" false = false
      /\ tokenize "'a b'cd" = ["'a b'"] ++ ["cd"]).
Proof.
  destruct tokens_never_fused_across_delimiters as (H1 & H2 & H3).
  split; [| split]; (split; [reflexivity |]); (split; [reflexivity |]).
  - exact (H1 "b"%char "("%char "c" ["a"] "a" eq_refl eq_refl).
  - exact (H2 "(f 'a b'" ")"%char " x" eq_refl eq_refl).
  - exact (H3 "'a b'" "cd" eq_refl eq_refl).
Defined.

(** C3, as stated, fails: a word and the string literal that follows it
    without a separator are two tokens when each is tokenized alone, and one
    emitted token when they are adjacent. *)
Lemma word_fused_with_following_string :
  tokenize "ab" = ["ab"]
  /\ tokenize "'cd'" = ["'cd'"]
  /\ tokenize ("ab" +:+ "'cd'") = ["ab'cd'"]
  /\ tokenize ("ab" +:+ "'cd'") <> tokenize "ab" ++ tokenize "'cd'".
Proof. repeat split. discriminate. Qed.

End Lexer.

(** ** Parser *)

Module Parser.

(** A list of [n] tokens is parsed with any fuel above [n]: the loop ends by
    a return or by [fail], and what is left in the iterator is shorter. *)
Lemma do_parse_loop_fuel fuel : forall ret tokens,
  (length tokens < fuel)%nat ->
  match do_parse_loop fuel ret tokens with
  | Ok (_, rest) => (length rest < length tokens)%nat
  | OutOfFuel => False
  | _ => True
  end.
Proof.
  induction fuel as [|fuel IH]; intros ret tokens Hlen; [lia |].
  destruct tokens as [|token tokens]; [exact I |].
  assert (forall r rest, (length rest <= length tokens)%nat ->
            match do_parse_loop fuel r rest with
            | Ok (_, rest') => (length rest' < length (token :: tokens))%nat
            | OutOfFuel => False
            | _ => True
            end) as Hnext.
  { intros r rest Hle. simpl in Hlen. specialize (IH r rest ltac:(lia)).
    destruct (do_parse_loop fuel r rest) as [[? ?]| | |]; simpl; auto; lia. }
  cbn [do_parse_loop].
  destruct (String.eqb token "(").
  { pose proof (Hnext [] tokens ltac:(lia)) as Hsub.
    destruct (do_parse_loop fuel [] tokens) as [[sub rest]| | |];
      cbn [bind]; auto.
    apply Hnext. simpl in Hsub. lia. }
  destruct (String.eqb token ")"); [simpl; lia |].
  destruct (is_integer token).
  { destruct (Py.int token); [apply Hnext; lia | exact I]. }
  destruct (is_float token).
  { destruct (Py.float token); [apply Hnext; lia | exact I]. }
  destruct (is_string token); apply Hnext; lia.
Qed.

(** [parse] always ends: by a tree or by [fail]. *)
Lemma parse_ends tokens : parse tokens <> OutOfFuel.
Proof.
  destruct tokens as [|token itert]; [discriminate |].
  unfold parse, do_parse. destruct (negb (String.eqb token "(")); [discriminate |].
  pose proof (do_parse_loop_fuel (S (length itert)) [] itert ltac:(lia)) as H.
  destruct (do_parse_loop (S (length itert)) [] itert) as [[? ?]| | |];
    simpl; try discriminate. contradiction.
Qed.

(** C7. For a token that is no parenthesis, the integer form of the host is
    tried before the float form: a token the integer conversion accepts is
    an Integer node (even though the float conversion accepts it as well, as
    it does for "3"), a token only the float conversion accepts is a Float
    node, and a token that fails both and is no quoted string is a Symbol
    node. So "3" parses as the Integer 3 and "3.0" as the Float 3.0. *)
Theorem integer_form_tried_before_float :
  (forall fuel ret token tokens,
      token <> "(" -> token <> ")" ->
      (forall n, Py.int token = Some n ->
         do_parse_loop (S fuel) ret (token :: tokens)
         = do_parse_loop fuel (ret ++ [OInt n]) tokens)
      /\ (forall f, Py.int token = None -> Py.float token = Some f ->
         do_parse_loop (S fuel) ret (token :: tokens)
         = do_parse_loop fuel (ret ++ [OFloat f]) tokens)
      /\ (Py.int token = None -> Py.float token = None -> is_string token = false ->
         do_parse_loop (S fuel) ret (token :: tokens)
         = do_parse_loop fuel (ret ++ [OSymbol token]) tokens))
  /\ Py.int "3" = Some 3%Z /\ Py.float "3" = Some three
  /\ Py.int "3.0" = None /\ Py.float "3.0" = Some three
  /\ parse (tokenize "(3 3.0 x3)") = Ok (OList [OInt 3; OFloat three; OSymbol "x3"]).
Proof.
  split; [| repeat split].
  intros fuel ret token tokens Hopen Hclose.
  apply String.eqb_neq in Hopen, Hclose.
  repeat split.
  - intros n Hn. cbn [do_parse_loop]. unfold is_integer.
    now rewrite Hopen, Hclose, Hn.
  - intros f Hn Hf. cbn [do_parse_loop]. unfold is_integer, is_float.
    now rewrite Hopen, Hclose, Hn, Hf.
  - intros Hn Hf Hs. cbn [do_parse_loop]. unfold is_integer, is_float.
    now rewrite Hopen, Hclose, Hn, Hf, Hs.
Qed.

Lemma integer_form_tried_before_float_witness :
  ("3" <> "(" /\ "3" <> ")" /\ Py.int "3" = Some 3%Z
   /\ do_parse_loop 2 [] ["3"; ")"] = do_parse_loop 1 ([] ++ [OInt 3]) [")"])
  /\ ("3.0" <> "(" /\ "3.0" <> ")" /\ Py.int "3.0" = None /\ Py.float "3.0" = Some three
      /\ do_parse_loop 2 [] ["3.0"; ")"] = do_parse_loop 1 ([] ++ [OFloat three]) [")"])
  /\ ("x3" <> "(" /\ "x3" <> ")" /\ Py.int "x3" = None /\ Py.float "x3" = None
      /\ is_string "x3" = false
      /\ do_parse_loop 2 [] ["x3"; ")"] = do_parse_loop 1 ([] ++ [OSymbol "x3"]) [")"]).
Proof.
  destruct integer_form_tried_before_float as [H _].
  assert (forall a b : string, String.eqb a b = false -> a <> b) as Hne
    by (intros a b; apply String.eqb_neq).
  split; [| split].
  - pose proof (Hne "3" "(" eq_refl) as H1. pose proof (Hne "3" ")" eq_refl) as H2.
    destruct (H 1%nat [] "3" [")"] H1 H2) as (Hi & _ & _).
    exact (conj H1 (conj H2 (conj eq_refl (Hi 3%Z eq_refl)))).
  - pose proof (Hne "3.0" "(" eq_refl) as H1. pose proof (Hne "3.0" ")" eq_refl) as H2.
    destruct (H 1%nat [] "3.0" [")"] H1 H2) as (_ & Hf & _).
    exact (conj H1 (conj H2 (conj eq_refl (conj eq_refl (Hf three eq_refl eq_refl))))).
  - pose proof (Hne "x3" "(" eq_refl) as H1. pose proof (Hne "x3" ")" eq_refl) as H2.
    destruct (H 1%nat [] "x3" [")"] H1 H2) as (_ & _ & Hs).
    exact (conj H1 (conj H2 (conj eq_refl (conj eq_refl (conj eq_refl
      (Hs eq_refl eq_refl eq_refl)))))).
Defined.

(** C10. The numeric forms are those of the host conversions, not strict
    lexical patterns: "1_0" is accepted by the integer conversion and parses
    as the Integer 10; "inf", "nan" and "1e3" are refused by the integer
    conversion, accepted by the float conversion, and parse as Float nodes. *)
Theorem numeric_tokens_follow_host_conversions :
  is_integer "1_0" = true
  /\ is_integer "inf" = false /\ is_float "inf" = true
  /\ is_integer "nan" = false /\ is_float "nan" = true
  /\ is_integer "1e3" = false /\ is_float "1e3" = true
  /\ parse ["("; "1_0"; "inf"; "nan"; "1e3"; ")"]
     = Ok (OList [OInt 10; OFloat (S754_infinity false); OFloat S754_nan;
                  OFloat thousand]).
Proof. repeat split. Qed.

End Parser.

(** ** Evaluator *)

Section EvaluatorProperties.

Variable host : operator.fn -> obj -> obj -> outcome obj.

(** *** More fuel never changes an outcome *)

Lemma bind_extends {A B : Type} (m1 m2 : outcome A) (k1 k2 : A -> outcome B) :
  (m1 <> OutOfFuel -> m2 = m1) ->
  (forall a, m1 = Ok a -> k1 a <> OutOfFuel -> k2 a = k1 a) ->
  bind m1 k1 <> OutOfFuel -> bind m2 k2 = bind m1 k1.
Proof.
  intros Hm Hk. destruct m1; simpl; intros Hne;
    try (rewrite Hm by discriminate; simpl; auto); contradiction.
Qed.

Lemma eval_each_extends ev1 ev2 : extends ev1 ev2 ->
  forall exprs environment,
    eval_each ev1 exprs environment <> OutOfFuel ->
    eval_each ev2 exprs environment = eval_each ev1 exprs environment.
Proof.
  intros Hext. induction exprs as [|arg exprs IH]; intros environment; [reflexivity |].
  cbn [eval_each]. apply bind_extends; [apply Hext |].
  intros [value environment'] _. apply bind_extends; [apply IH |].
  intros [values environment''] _ _. reflexivity.
Qed.

Lemma eval_begin_extends ev1 ev2 : extends ev1 ev2 ->
  forall exprs result environment,
    eval_begin ev1 exprs result environment <> OutOfFuel ->
    eval_begin ev2 exprs result environment = eval_begin ev1 exprs result environment.
Proof.
  intros Hext. induction exprs as [|ex exprs IH]; intros result environment;
    [reflexivity |].
  cbn [eval_begin]. apply bind_extends; [apply Hext |].
  intros [result' environment'] _. apply IH.
Qed.

Lemma apply_fn_with_extends ev1 ev2 : extends ev1 ev2 ->
  forall fn args environment,
    apply_fn_with host ev1 fn args environment <> OutOfFuel ->
    apply_fn_with host ev2 fn args environment
    = apply_fn_with host ev1 fn args environment.
Proof.
  intros Hext fn args environment. destruct fn; try reflexivity.
  cbn [apply_fn_with]. apply bind_extends; [reflexivity |].
  intros arguments _. destruct (negb _); [reflexivity |].
  apply bind_extends; [reflexivity |].
  intros new_env _. apply bind_extends; [apply Hext |].
  intros [value ?] _ _. reflexivity.
Qed.

Lemma eval_call_extends ev1 ev2 : extends ev1 ev2 ->
  forall head rest environment,
    eval_call host ev1 head rest environment <> OutOfFuel ->
    eval_call host ev2 head rest environment
    = eval_call host ev1 head rest environment.
Proof.
  intros Hext head rest environment. unfold eval_call.
  apply bind_extends; [apply Hext |].
  intros [fn environment'] _. apply bind_extends; [now apply eval_each_extends |].
  intros [args environment''] _.
  apply bind_extends; [now apply apply_fn_with_extends |].
  intros value _ _. reflexivity.
Qed.

Lemma eval_expr_with_extends ev1 ev2 : extends ev1 ev2 ->
  extends (eval_expr_with host ev1) (eval_expr_with host ev2).
Proof.
  intros Hext expr environment.
  destruct expr as [| | | | | | |items| |]; try reflexivity.
  destruct items as [|head rest]; [reflexivity |].
  pose proof (eval_call_extends _ _ Hext head rest environment) as Hcall.
  destruct head; try exact Hcall.
  cbn [eval_expr_with].
  destruct (String.eqb value "lambda"); [reflexivity |].
  destruct (String.eqb value "if").
  { destruct rest as [|condition [|then_clause more]]; try reflexivity.
    apply bind_extends; [apply Hext |].
    intros [c environment'] _. destruct c as [| |[|]| | | | | | |]; try apply Hext.
    destruct more as [|e [|? ?]]; try reflexivity.
    destruct e; try apply Hext; reflexivity. }
  destruct (String.eqb value "define").
  { destruct rest as [|target [|value_expr [|? ?]]]; try reflexivity.
    apply bind_extends; [reflexivity |].
    intros name _. apply bind_extends; [apply Hext |].
    intros [v environment'] _ _. reflexivity. }
  destruct (String.eqb value "begin"); [now apply eval_begin_extends |].
  destruct (String.eqb value "quote"); [reflexivity |].
  exact Hcall.
Qed.

Lemma eval_expr_S fuel : extends (eval_expr host fuel) (eval_expr host (S fuel)).
Proof.
  induction fuel as [|fuel IH].
  - intros expr environment H. now contradiction H.
  - apply (eval_expr_with_extends _ _ IH).
Qed.

(** An outcome reached with some fuel is the outcome with any larger fuel. *)
Lemma eval_expr_more_fuel fuel extra expr environment :
  eval_expr host fuel expr environment <> OutOfFuel ->
  eval_expr host (extra + fuel) expr environment
  = eval_expr host fuel expr environment.
Proof.
  intros H. induction extra as [|extra IH]; [reflexivity |].
  cbn [Nat.add]. rewrite <- IH. apply eval_expr_S. now rewrite IH.
Qed.

Lemma run_more_fuel fuel extra text environment :
  run host fuel text environment <> OutOfFuel ->
  run host (extra + fuel) text environment = run host fuel text environment.
Proof.
  unfold run. destruct (parse (tokenize text)); try reflexivity.
  apply eval_expr_more_fuel.
Qed.

Lemma value_of_run_more_fuel fuel extra text environment r :
  value_of_run (run host fuel text environment) = r -> r <> OutOfFuel ->
  value_of_run (run host (extra + fuel) text environment) = r.
Proof.
  intros Hr Hne. rewrite run_more_fuel; [exact Hr |].
  intros Hout. rewrite Hout in Hr. now symmetry in Hr.
Qed.

(** An outcome computed with [fuel] holds with [extra + fuel]. *)
Ltac with_fuel fuel :=
  match goal with
  | |- run _ (?extra + _) ?text ?environment = ?r =>
      let H := fresh in
      assert (run host fuel text environment = r) as H
        by (vm_cast_no_check (eq_refl r));
      rewrite (run_more_fuel fuel extra text environment);
      [exact H | rewrite H; discriminate]
  | |- value_of_run (run _ (?extra + _) ?text ?environment) = ?r =>
      apply (value_of_run_more_fuel fuel extra text environment r);
      [vm_cast_no_check (eq_refl r) | discriminate]
  end.

Ltac split_all := repeat match goal with |- _ /\ _ => split end.

(** *** quote *)

(** C5. [(quote e)] returns [e] itself and leaves the environment as it is,
    in every environment: [e] is not evaluated and nothing is looked up. In
    the empty environment, where no lookup can succeed, [(quote (a b c))]
    is the list of the three Symbol objects. With no or with several
    elements after the keyword the form ends in a hard failure. *)
Theorem quote_returns_its_argument_unevaluated :
  (forall fuel environment e,
      eval_expr host (S fuel) (form "quote" [e]) environment = Ok (e, environment))
  /\ (forall extra,
      run host (extra + 1) "(quote (a b c))" ∅
      = Ok (OList [OSymbol "a"; OSymbol "b"; OSymbol "c"], ∅))
  /\ (forall fuel environment rest,
      length rest <> 1%nat ->
      eval_expr host (S fuel) (form "quote" rest) environment
      = fail "Quote requires exactly one argument").
Proof.
  split; [reflexivity | split].
  - intros extra. with_fuel 1%nat.
  - intros fuel environment [|e [|e' rest]] H; try reflexivity. now contradiction H.
Qed.

(** *** Arity *)

(** C6. The application of a closure to a number of values that differs
    from the number of its parameters ends in a hard failure whose message
    gives the expected and the actual count, whatever the body and the
    environment are; no value is returned. [((lambda (a b) a) 1)] fails with
    expected 2, got 1. *)
Theorem arity_mismatch_is_a_hard_failure :
  (forall fuel arguments params code args environment,
      items_of arguments = Ok params ->
      length args <> length params ->
      apply_fn host fuel (OLambda arguments code) args environment
      = fail ("Mismatched number of arguments to lambda: expected "
              +:+ decimal (length params) +:+ ", got " +:+ decimal (length args)))
  /\ (forall extra environment,
      run host (extra + 2) "((lambda (a b) a) 1)" environment
      = fail "Mismatched number of arguments to lambda: expected 2, got 1").
Proof.
  split.
  - intros fuel arguments params code args environment Hitems Hlen.
    unfold apply_fn, apply_fn_with. rewrite Hitems. cbn [bind].
    apply Nat.eqb_neq in Hlen. now rewrite Hlen.
  - intros extra environment.
    rewrite run_more_fuel; [reflexivity | discriminate].
Qed.

(** *** if *)

(** C2. When the condition of [(if cond then [else])] evaluates to [c]:
    any [c] other than the Boolean false selects the then clause, the
    Boolean false selects the else clause, and the null value is returned
    when there is none. The outcome of the form, value and environment, is
    the outcome of the selected clause alone, evaluated in the environment
    the condition left: the other clause is not evaluated. In the base
    environment 0, the empty list and the null value select the then clause,
    and a clause that would fail is harmless when it is not selected. *)
Theorem if_selects_one_branch :
  (forall fuel environment condition then_clause c environment',
      eval_expr host fuel condition environment = Ok (c, environment') ->
      (c <> OBool false ->
       forall more,
         eval_expr host (S fuel) (form "if" (condition :: then_clause :: more))
           environment
         = eval_expr host fuel then_clause environment')
      /\ (c = OBool false ->
          forall else_clause,
            eval_expr host (S fuel) (form "if" [condition; then_clause; else_clause])
              environment
            = eval_expr host fuel else_clause environment')
      /\ (c = OBool false ->
          eval_expr host (S fuel) (form "if" [condition; then_clause]) environment
          = Ok (ONone, environment')))
  /\ (forall extra,
      run host (extra + 3) "(if 0 'then' 'else')" base_environment
      = Ok (OStr "then", base_environment)
      /\ run host (extra + 3) "(if (list) 'then' 'else')" base_environment
         = Ok (OStr "then", base_environment)
      /\ run host (extra + 3) "(if nil 'then' 'else')" base_environment
         = Ok (OStr "then", base_environment)
      /\ run host (extra + 3) "(if (null? 0) 'then' 'else')" base_environment
         = Ok (OStr "else", base_environment)
      /\ run host (extra + 3) "(if (null? 0) 'then')" base_environment
         = Ok (ONone, base_environment)
      /\ run host (extra + 3) "(if 0 'then' (undefined))" base_environment
         = Ok (OStr "then", base_environment)
      /\ run host (extra + 3) "(if (null? 0) (undefined) 'else')" base_environment
         = Ok (OStr "else", base_environment)).
Proof.
  split.
  - intros fuel environment condition then_clause c environment' Hc.
    assert (exists fuel', fuel = S fuel') as [fuel' ->]
      by (destruct fuel; [discriminate | eauto]).
    cbn [eval_expr] in Hc.
    split; [| split].
    + intros Hne more.
      cbn [form eval_expr eval_expr_with String.eqb Ascii.eqb Bool.eqb].
      rewrite Hc. cbn [bind].
      destruct c as [| |[|]| | | | | | |]; try reflexivity. now contradiction Hne.
    + intros -> else_clause.
      cbn [form eval_expr eval_expr_with String.eqb Ascii.eqb Bool.eqb].
      rewrite Hc. cbn [bind]. destruct else_clause; reflexivity.
    + intros ->. cbn [form eval_expr eval_expr_with String.eqb Ascii.eqb Bool.eqb].
      rewrite Hc. reflexivity.
  - intros extra. split_all; with_fuel 3%nat.
Qed.

(** C9. With two or more elements after the then clause, no else clause is
    recorded and nothing past the then clause is evaluated: a condition that
    evaluates to the Boolean false yields the null value, any other value
    of the condition selects the then clause, and the form ends without
    failure even where the ignored elements would fail. *)
Theorem if_ignores_elements_past_the_fourth :
  (forall fuel environment condition then_clause e1 e2 more c environment',
      eval_expr host fuel condition environment = Ok (c, environment') ->
      eval_expr host (S fuel)
        (form "if" (condition :: then_clause :: e1 :: e2 :: more)) environment
      = match c with
        | OBool false => Ok (ONone, environment')
        | _ => eval_expr host fuel then_clause environment'
        end)
  /\ (forall extra,
      run host (extra + 3) "(if (null? 0) 1 2 3)" base_environment
      = Ok (ONone, base_environment)
      /\ run host (extra + 3) "(if (null? 0) 1 (undefined) (undefined))"
           base_environment
         = Ok (ONone, base_environment)
      /\ run host (extra + 3) "(if (null? nil) 1 (undefined) (undefined))"
           base_environment
         = Ok (OInt 1, base_environment)).
Proof.
  split.
  - intros fuel environment condition then_clause e1 e2 more c environment' Hc.
    cbn [form eval_expr eval_expr_with String.eqb Ascii.eqb Bool.eqb].
    rewrite Hc. cbn [bind]. destruct c as [| |[|]| | | | | | |]; reflexivity.
  - intros extra. split_all; with_fuel 3%nat.
Qed.

(** *** define *)

Lemma eval_define fuel environment name value_expr value environment' :
  eval_expr host fuel value_expr environment = Ok (value, environment') ->
  eval_expr host (S fuel) (form "define" [OSymbol name; value_expr]) environment
  = Ok (value, <[name := value]> environment').
Proof.
  intros H.
  cbn [form eval_expr eval_expr_with String.eqb Ascii.eqb Bool.eqb value_of bind].
  now rewrite H.
Qed.

(** C8. [(define name value)] evaluates the value expression in the current
    environment, binds the name in that environment and returns the value
    bound. When the value expression gives the same value again, as a
    literal does, a second evaluation of the form succeeds and leaves the
    environment exactly as the first one left it: after [(define x 1)]
    twice, [x] is bound to 1. *)
Theorem define_binds_in_place_and_is_idempotent :
  (forall fuel environment name value_expr value environment',
      eval_expr host fuel value_expr environment = Ok (value, environment') ->
      eval_expr host (S fuel) (form "define" [OSymbol name; value_expr]) environment
      = Ok (value, <[name := value]> environment'))
  /\ (forall fuel environment name value_expr value,
      eval_expr host fuel value_expr environment = Ok (value, environment) ->
      eval_expr host fuel value_expr (<[name := value]> environment)
      = Ok (value, <[name := value]> environment) ->
      let define := form "define" [OSymbol name; value_expr] in
      eval_expr host (S fuel) define environment
      = Ok (value, <[name := value]> environment)
      /\ eval_expr host (S fuel) define (<[name := value]> environment)
         = Ok (value, <[name := value]> environment)
      /\ <[name := value]> environment !! name = Some value)
  /\ (forall extra environment,
      run host (extra + 3) "(begin (define x 1) (define x 1))" environment
      = Ok (OInt 1, <["x" := OInt 1]> environment)).
Proof.
  split; [exact eval_define | split].
  - intros fuel environment name value_expr value H1 H2 define. subst define.
    rewrite (eval_define _ _ _ _ _ _ H1), (eval_define _ _ _ _ _ _ H2).
    rewrite insert_insert_eq, lookup_insert_eq. auto.
  - intros extra environment.
    assert (run host 3 "(begin (define x 1) (define x 1))" environment
            = Ok (OInt 1, <["x" := OInt 1]> environment)) as H.
    { unfold run.
      change (parse (tokenize "(begin (define x 1) (define x 1))"))
        with (Ok (form "begin" [form "define" [OSymbol "x"; OInt 1];
                                form "define" [OSymbol "x"; OInt 1]])).
      cbn. now rewrite insert_insert_eq. }
    rewrite run_more_fuel; [exact H | rewrite H; discriminate].
Qed.

(** *** Special forms *)

(** C4. In every environment, whatever it binds the five keywords to, a
    list whose head is the Symbol [lambda], [if], [define], [begin] or
    [quote] is handled as the special form, for every shape of the rest of
    the list: the equations below give its outcome, and they neither look
    the head up nor apply anything. After a [define] of a keyword the form
    still is the special form. *)
Theorem special_forms_cannot_be_shadowed :
  (forall fuel environment,
      (forall params body more,
          eval_expr host (S fuel) (form "lambda" (params :: body :: more)) environment
          = Ok (OLambda params body, environment))
      /\ (forall rest, (length rest < 2)%nat ->
          eval_expr host (S fuel) (form "lambda" rest) environment
          = fail "Lambda requires arguments and body")
      /\ (forall condition then_clause more,
          eval_expr host (S fuel) (form "if" (condition :: then_clause :: more))
            environment
          = do (c, environment') <- eval_expr host fuel condition environment in
            match c, more with
            | OBool false, [ONone] => Ok (ONone, environment')
            | OBool false, [else_clause] => eval_expr host fuel else_clause environment'
            | OBool false, _ => Ok (ONone, environment')
            | _, _ => eval_expr host fuel then_clause environment'
            end)
      /\ (forall rest, (length rest < 2)%nat ->
          eval_expr host (S fuel) (form "if" rest) environment
          = fail "If requires at least condition and then clause")
      /\ (forall target value_expr,
          eval_expr host (S fuel) (form "define" [target; value_expr]) environment
          = do name <- value_of target in
            do (value, environment') <- eval_expr host fuel value_expr environment in
            Ok (value, <[name := value]> environment'))
      /\ (forall rest, length rest <> 2%nat ->
          eval_expr host (S fuel) (form "define" rest) environment
          = fail "Define requires name and value")
      /\ (forall rest,
          eval_expr host (S fuel) (form "begin" rest) environment
          = eval_begin (eval_expr host fuel) rest ONone environment)
      /\ (forall e,
          eval_expr host (S fuel) (form "quote" [e]) environment = Ok (e, environment))
      /\ (forall rest, length rest <> 1%nat ->
          eval_expr host (S fuel) (form "quote" rest) environment
          = fail "Quote requires exactly one argument"))
  /\ (forall extra,
      value_of_run (run host (extra + 4)
        "(begin (define quote (lambda (x) 1)) (quote 5))" base_environment)
      = Ok (OInt 5)
      /\ value_of_run (run host (extra + 4)
           "(begin (define if (lambda (a b c) 7)) (if (null? 0) 1 2))"
           base_environment)
         = Ok (OInt 2)
      /\ value_of_run (run host (extra + 4)
           "(begin (define begin (lambda (a) 7)) (begin 1))" base_environment)
         = Ok (OInt 1)
      /\ value_of_run (run host (extra + 4)
           "(begin (define define (lambda (a b) 7)) (define z 3) z)"
           base_environment)
         = Ok (OInt 3)
      /\ value_of_run (run host (extra + 4)
           "(begin (define lambda (lambda (a b) 7)) ((lambda (x) x) 4))"
           base_environment)
         = Ok (OInt 4)).
Proof.
  split.
  - intros fuel environment. split_all; try reflexivity.
    + intros [|? [|? ?]] H; try reflexivity; simpl in H; lia.
    + intros condition then_clause more.
      cbn [form eval_expr eval_expr_with String.eqb Ascii.eqb Bool.eqb].
      destruct (eval_expr host fuel condition environment) as [[c environment']| | |];
        try reflexivity.
      cbn [bind]. destruct c as [| |[|]| | | | | | |]; try reflexivity.
      destruct more as [|e [|? ?]]; try reflexivity. destruct e; reflexivity.
    + intros [|? [|? ?]] H; try reflexivity; simpl in H; lia.
    + intros [|? [|? [|? ?]]] H; try reflexivity. now contradiction H.
    + intros [|? [|? ?]] H; try reflexivity. now contradiction H.
  - intros extra. split_all.
    all: match goal with
         | |- value_of_run (run _ (_ + ?n) _ _) = _ => with_fuel n
         end.
Qed.

(** *** Closure application *)

Lemma bound_cons name names arg args environment :
  bound (name :: names) (arg :: args) environment
  = bound names args (<[name := arg]> environment).
Proof. reflexivity. Qed.

Lemma bind_parameters_symbols names : forall args environment,
  length args = length names ->
  bind_parameters (map OSymbol names) args environment
  = Ok (bound names args environment).
Proof.
  induction names as [|name names IH]; intros [|arg args] environment Hlen;
    try discriminate; [reflexivity |].
  cbn [map bind_parameters]. rewrite IH by (simpl in Hlen; lia).
  now rewrite bound_cons.
Qed.

Lemma bound_lookup_other names x : x ∉ names ->
  forall args environment, bound names args environment !! x = environment !! x.
Proof.
  induction names as [|name names IH]; intros Hx args environment; [reflexivity |].
  apply not_elem_of_cons in Hx as [Hne Hx].
  destruct args as [|arg args]; [reflexivity |].
  rewrite bound_cons, IH by assumption. now apply lookup_insert_ne.
Qed.

Lemma bound_lookup_parameter names : NoDup names ->
  forall args environment i x v,
    names !! i = Some x -> args !! i = Some v ->
    bound names args environment !! x = Some v.
Proof.
  induction 1 as [|name names Hnotin Hnodup IH];
    intros args environment i x v Hx Hv; [discriminate |].
  destruct args as [|arg args]; [discriminate |].
  rewrite bound_cons.
  destruct i as [|i].
  - injection Hx as ->. injection Hv as ->.
    rewrite bound_lookup_other by assumption. apply lookup_insert_eq.
  - now apply (IH _ _ i).
Qed.

(** C1. A closure whose parameters are the Symbols [names], applied to as
    many values, has its body evaluated in a new environment: every binding
    of the environment of the caller under another name is copied, and each
    parameter name is bound to its argument value. Only the value of the
    body comes back: the environment of a call expression after the call is
    the one its head and its arguments left, whatever the body defined or
    overwrote. The body sees the bindings of its caller, not those of the
    scope the closure was made in. *)
Theorem closure_application_copies_the_caller_environment :
  (forall fuel names code args environment,
      length args = length names ->
      exists new_env,
        apply_fn host fuel (OLambda (OList (map OSymbol names)) code) args
          environment
        = (do (value, _) <- eval_expr host fuel code new_env in Ok value)
        /\ (forall x, x ∉ names -> new_env !! x = environment !! x)
        /\ (NoDup names -> forall i x v,
              names !! i = Some x -> args !! i = Some v -> new_env !! x = Some v))
  /\ (forall fuel head rest environment fn environment1 args environment2,
      is_special_form head = false ->
      eval_expr host fuel head environment = Ok (fn, environment1) ->
      eval_each (eval_expr host fuel) rest environment1 = Ok (args, environment2) ->
      eval_expr host (S fuel) (OList (head :: rest)) environment
      = do value <- apply_fn host fuel fn args environment2 in
        Ok (value, environment2))
  /\ (forall extra,
      value_of_run (run host (extra + 5)
        "(begin (define f (lambda (x) (define y x))) (f 1) y)" base_environment)
      = fail "Couldn't find symbol y"
      /\ value_of_run (run host (extra + 5)
           "(begin (define y 0) (define f (lambda (x) (define y x))) (f 1) y)"
           base_environment)
         = Ok (OInt 0)
      /\ value_of_run (run host (extra + 6)
           "(begin (define x 1) (define f (lambda () x))
                   (define g (lambda (x) (f))) (g 2))"
           base_environment)
         = Ok (OInt 2)
      /\ value_of_run (run host (extra + 5)
           "(begin (define make (lambda (y) (lambda () y)))
                   (define h (make 5)) (h))"
           base_environment)
         = fail "Couldn't find symbol y").
Proof.
  split; [| split].
  - intros fuel names code args environment Hlen.
    exists (bound names args environment). split; [| split].
    + unfold apply_fn, apply_fn_with. cbn [items_of bind].
      rewrite length_map. apply Nat.eqb_eq in Hlen. rewrite Hlen. cbn [negb].
      now rewrite bind_parameters_symbols by now apply Nat.eqb_eq.
    + intros x Hx. now apply bound_lookup_other.
    + intros Hnodup i x v. now apply bound_lookup_parameter.
  - intros fuel head rest environment fn environment1 args environment2
      Hs Hhead Hargs.
    assert (eval_expr host (S fuel) (OList (head :: rest)) environment
            = eval_call host (eval_expr host fuel) head rest environment) as ->.
    { destruct head; try reflexivity. cbn [is_special_form] in Hs.
      repeat (apply orb_false_elim in Hs as [Hs ?]).
      cbn [eval_expr eval_expr_with].
      repeat match goal with
             | H : String.eqb _ _ = false |- _ => rewrite H; clear H
             end.
      reflexivity. }
    unfold eval_call. rewrite Hhead. cbn [bind]. rewrite Hargs. reflexivity.
  - intros extra. split_all.
    all: match goal with
         | |- value_of_run (run _ (_ + ?n) _ _) = _ => with_fuel n
         end.
Qed.

End EvaluatorProperties.

Module Examples.

Ltac by_computation :=
  match goal with |- _ = ?r => vm_cast_no_check (eq_refl r) end.

Example tokenize_sum : tokenize "(+ 1 2)" = ["("; "+"; "1"; "2"; ")"].
Proof. reflexivity. Qed.

Example tokenize_string_with_parentheses : tokenize "'a(b)c'" = ["'a(b)c'"].
Proof. reflexivity. Qed.

Example run_sum :
  value_of_run (run integer_operator 3 "(+ 1 2)" base_environment) = Ok (OInt 3).
Proof. by_computation. Qed.

Example run_if_greater :
  value_of_run (run integer_operator 3 "(if (> 3 2) 'yes' 'no')" base_environment)
  = Ok (OStr "yes")
  /\ value_of_run (run integer_operator 3 "(if (> 2 3) 'yes' 'no')" base_environment)
     = Ok (OStr "no").
Proof. split; by_computation. Qed.

Example run_define_then_use :
  run integer_operator 4 "(begin (define x 5) (+ x 1))" base_environment
  = Ok (OInt 6, <["x" := OInt 5]> base_environment)
  /\ (<["x" := OInt 5]> base_environment : env) !! "x" = Some (OInt 5).
Proof. split; [by_computation | apply lookup_insert_eq]. Qed.

Example run_list_primitives :
  value_of_run (run integer_operator 3 "(car (list))" base_environment) = Ok ONone
  /\ value_of_run (run integer_operator 3 "(cdr (list 1))" base_environment)
     = Ok (OList [])
  /\ value_of_run (run integer_operator 3 "(append (list 1 2) (list 3))"
                     base_environment)
     = Ok (OList [OInt 1; OInt 2; OInt 3]).
Proof. split; [| split]; by_computation. Qed.

End Examples.

(** ** The theorems at concrete inputs *)

Lemma quote_returns_its_argument_unevaluated_witness :
  length [OInt 1; OInt 2] <> 1%nat
  /\ eval_expr integer_operator 1 (form "quote" [OInt 1; OInt 2]) ∅
     = fail "Quote requires exactly one argument".
Proof.
  assert (length [OInt 1; OInt 2] <> 1%nat) as H by (simpl; lia).
  split; [exact H |].
  exact (proj2 (proj2 (quote_returns_its_argument_unevaluated integer_operator))
           0%nat ∅ [OInt 1; OInt 2] H).
Defined.

Lemma arity_mismatch_is_a_hard_failure_witness :
  items_of (OList [OSymbol "a"; OSymbol "b"]) = Ok [OSymbol "a"; OSymbol "b"]
  /\ length [OInt 1] <> length [OSymbol "a"; OSymbol "b"]
  /\ apply_fn integer_operator 0
       (OLambda (OList [OSymbol "a"; OSymbol "b"]) (OSymbol "a")) [OInt 1] ∅
     = fail "Mismatched number of arguments to lambda: expected 2, got 1".
Proof.
  assert (length [OInt 1] <> length [OSymbol "a"; OSymbol "b"]) as H
    by (simpl; lia).
  split; [reflexivity | split; [exact H |]].
  exact (proj1 (arity_mismatch_is_a_hard_failure integer_operator)
           0%nat (OList [OSymbol "a"; OSymbol "b"]) [OSymbol "a"; OSymbol "b"]
           (OSymbol "a") [OInt 1] ∅ eq_refl H).
Defined.

Lemma if_selects_one_branch_witness :
  (eval_expr integer_operator 1 (OInt 0) null_environment
   = Ok (OInt 0, null_environment)
   /\ OInt 0 <> OBool false
   /\ eval_expr integer_operator 2
        (form "if" (OInt 0 :: OString "then" :: [OString "else"])) null_environment
      = eval_expr integer_operator 1 (OString "then") null_environment)
  /\ (eval_expr integer_operator 2 is_null_0 null_environment
      = Ok (OBool false, null_environment)
      /\ eval_expr integer_operator 3
           (form "if" [is_null_0; OString "then"; OString "else"]) null_environment
         = eval_expr integer_operator 2 (OString "else") null_environment
      /\ eval_expr integer_operator 3
           (form "if" [is_null_0; OString "then"]) null_environment
         = Ok (ONone, null_environment)).
Proof.
  assert (OInt 0 <> OBool false) as Hne by discriminate.
  assert (eval_expr integer_operator 2 is_null_0 null_environment
          = Ok (OBool false, null_environment)) as Hnull by reflexivity.
  destruct (proj1 (if_selects_one_branch integer_operator) 1%nat null_environment
              (OInt 0) (OString "then") (OInt 0) null_environment eq_refl)
    as (Hthen & _ & _).
  destruct (proj1 (if_selects_one_branch integer_operator) 2%nat null_environment
              is_null_0 (OString "then") (OBool false) null_environment Hnull)
    as (_ & Helse & Hnone).
  split.
  - split; [reflexivity | split; [exact Hne |]]. exact (Hthen Hne [OString "else"]).
  - split; [exact Hnull | split].
    + exact (Helse eq_refl (OString "else")).
    + exact (Hnone eq_refl).
Defined.

Lemma if_ignores_elements_past_the_fourth_witness :
  eval_expr integer_operator 2 is_null_0 null_environment
  = Ok (OBool false, null_environment)
  /\ eval_expr integer_operator 3
       (form "if" (is_null_0 :: OInt 1 :: OSymbol "undefined"
                   :: OSymbol "undefined" :: []))
       null_environment
     = Ok (ONone, null_environment).
Proof.
  assert (eval_expr integer_operator 2 is_null_0 null_environment
          = Ok (OBool false, null_environment)) as Hnull by reflexivity.
  split; [exact Hnull |].
  exact (proj1 (if_ignores_elements_past_the_fourth integer_operator) 2%nat
           null_environment is_null_0 (OInt 1) (OSymbol "undefined")
           (OSymbol "undefined") [] (OBool false) null_environment Hnull).
Defined.

Lemma define_binds_in_place_and_is_idempotent_witness :
  eval_expr integer_operator 1 (OInt 1) ∅ = Ok (OInt 1, ∅)
  /\ eval_expr integer_operator 1 (OInt 1) (<["x" := OInt 1]> ∅)
     = Ok (OInt 1, <["x" := OInt 1]> ∅)
  /\ eval_expr integer_operator 2 (form "define" [OSymbol "x"; OInt 1]) ∅
     = Ok (OInt 1, <["x" := OInt 1]> ∅)
  /\ eval_expr integer_operator 2 (form "define" [OSymbol "x"; OInt 1])
       (<["x" := OInt 1]> ∅)
     = Ok (OInt 1, <["x" := OInt 1]> ∅)
  /\ (<["x" := OInt 1]> ∅ : env) !! "x" = Some (OInt 1).
Proof.
  split; [reflexivity | split; [reflexivity |]].
  exact (proj1 (proj2 (define_binds_in_place_and_is_idempotent integer_operator))
           1%nat ∅ "x" (OInt 1) (OInt 1) eq_refl eq_refl).
Defined.

Lemma special_forms_cannot_be_shadowed_witness :
  ((length [OInt 1] < 2)%nat
   /\ eval_expr integer_operator 1 (form "lambda" [OInt 1]) shadowing_environment
      = fail "Lambda requires arguments and body")
  /\ ((length [OInt 1] < 2)%nat
      /\ eval_expr integer_operator 1 (form "if" [OInt 1]) shadowing_environment
         = fail "If requires at least condition and then clause")
  /\ (length [OInt 1] <> 2%nat
      /\ eval_expr integer_operator 1 (form "define" [OInt 1]) shadowing_environment
         = fail "Define requires name and value")
  /\ (length [OInt 1; OInt 2] <> 1%nat
      /\ eval_expr integer_operator 1 (form "quote" [OInt 1; OInt 2])
           shadowing_environment
         = fail "Quote requires exactly one argument")
  /\ eval_expr integer_operator 1 (form "quote" [OInt 5]) shadowing_environment
     = Ok (OInt 5, shadowing_environment).
Proof.
  destruct (proj1 (special_forms_cannot_be_shadowed integer_operator) 0%nat
              shadowing_environment)
    as (_ & Hlambda & _ & Hif & _ & Hdefine & _ & Hquote & Hquote').
  assert (length [OInt 1] < 2)%nat as H1 by (simpl; lia).
  assert (length [OInt 1] <> 2%nat) as H2 by (simpl; lia).
  assert (length [OInt 1; OInt 2] <> 1%nat) as H3 by (simpl; lia).
  split; [exact (conj H1 (Hlambda [OInt 1] H1)) |].
  split; [exact (conj H1 (Hif [OInt 1] H1)) |].
  split; [exact (conj H2 (Hdefine [OInt 1] H2)) |].
  split; [exact (conj H3 (Hquote' [OInt 1; OInt 2] H3)) |].
  exact (Hquote (OInt 5)).
Defined.

Lemma closure_application_copies_the_caller_environment_witness :
  (length [OInt 1] = length ["x"]
   /\ exists new_env,
       apply_fn integer_operator 2 (OLambda (OList (map OSymbol ["x"])) define_y_x)
         [OInt 1] null_environment
       = (do (value, _) <- eval_expr integer_operator 2 define_y_x new_env in
          Ok value)
       /\ new_env !! "null?" = null_environment !! "null?"
       /\ new_env !! "x" = Some (OInt 1))
  /\ (is_special_form (form "lambda" [OList [OSymbol "x"]; define_y_x]) = false
      /\ eval_expr integer_operator 2 (form "lambda" [OList [OSymbol "x"]; define_y_x])
           null_environment
         = Ok (OLambda (OList [OSymbol "x"]) define_y_x, null_environment)
      /\ eval_each (eval_expr integer_operator 2) [OInt 1] null_environment
         = Ok ([OInt 1], null_environment)
      /\ eval_expr integer_operator 3
           (OList (form "lambda" [OList [OSymbol "x"]; define_y_x] :: [OInt 1]))
           null_environment
         = do value <- apply_fn integer_operator 2
                         (OLambda (OList [OSymbol "x"]) define_y_x) [OInt 1]
                         null_environment in
           Ok (value, null_environment)).
Proof.
  destruct (closure_application_copies_the_caller_environment integer_operator)
    as (Hbody & Hcaller & _).
  split.
  - split; [reflexivity |].
    destruct (Hbody 2%nat ["x"] define_y_x [OInt 1] null_environment eq_refl)
      as (new_env & Happly & Hcopy & Hbind).
    exists new_env. split; [exact Happly | split].
    + apply Hcopy. intros Hin. apply list_elem_of_singleton in Hin. discriminate.
    + apply (Hbind (NoDup_singleton "x") 0%nat "x" (OInt 1)); reflexivity.
  - split; [reflexivity | split; [reflexivity | split; [reflexivity |]]].
    exact (Hcaller 2%nat (form "lambda" [OList [OSymbol "x"]; define_y_x]) [OInt 1]
             null_environment (OLambda (OList [OSymbol "x"]) define_y_x)
             null_environment [OInt 1] null_environment eq_refl eq_refl eq_refl).
Defined.

(** * Further properties *)

(** ** Tokenizer *)

Module Tokens.

Lemma append_cons x (a b : string) : String x a +:+ b = String x (a +:+ b).
Proof. reflexivity. Qed.

Lemma append_empty_l (a : string) : EmptyString +:+ a = a.
Proof. reflexivity. Qed.

Lemma append_assoc (a b c : string) : (a +:+ b) +:+ c = a +:+ (b +:+ c).
Proof.
  induction a as [|x a IH]; [reflexivity |]. rewrite !append_cons. now f_equal.
Qed.

Lemma append_empty_r (a : string) : a +:+ EmptyString = a.
Proof. induction a as [|x a IH]; [reflexivity |]. rewrite append_cons. now f_equal. Qed.

Lemma join_cons (t : string) (a : list string) : join (t :: a) = t +:+ join a.
Proof. reflexivity. Qed.

Lemma join_app (a b : list string) : join (a ++ b) = join a +:+ join b.
Proof.
  induction a as [|x a IH]; [reflexivity |].
  cbn [app]. now rewrite !join_cons, IH, append_assoc.
Qed.

Lemma join_singleton (t : string) : join [t] = t.
Proof. rewrite join_cons. apply append_empty_r. Qed.

(** Every step of the loop emits nothing, a word that is not empty, or a
    parenthesis. *)
Lemma tokenize_loop_nonempty s : forall ret b cw,
  Forall (fun t => nonempty t = true) ret ->
  Forall (fun t => nonempty t = true) (tokenize_loop s ret b cw).
Proof.
  induction s as [|c s IH]; intros ret b cw Hret; simpl.
  - destruct (nonempty cw) eqn:Hcw; [| assumption].
    apply Forall_app; split; [assumption | now repeat constructor].
  - repeat match goal with
           | |- context [if ?x then _ else _] => destruct x eqn:?
           end;
      apply IH; repeat (apply Forall_app; split); try assumption;
      repeat constructor; try apply Lexer.nonempty_add_char;
      match goal with
      | H : nonempty cw && _ = true |- _ => now apply andb_prop in H as [? _]
      end.
Qed.

(** X1. No token that [tokenize] emits is empty. *)
Theorem tokens_are_not_empty s : Forall (fun t => nonempty t = true) (tokenize s).
Proof. apply tokenize_loop_nonempty. constructor. Qed.

Ltac join_normal :=
  cbn [nonempty andb negb];
  rewrite ?join_app, ?join_singleton; unfold add_char;
  rewrite ?append_assoc, ?append_cons, ?append_empty_l, ?append_empty_r.

Lemma tokenize_loop_join s : forall ret b cw,
  join (tokenize_loop s ret b cw) = join ret +:+ cw +:+ without_blanks s b.
Proof.
  induction s as [|c s IH]; intros ret b cw; simpl.
  - destruct cw as [|x cw]; join_normal; reflexivity.
  - destruct (is_quote c).
    { destruct b; simpl; rewrite IH; join_normal; reflexivity. }
    destruct b; [rewrite IH; join_normal; reflexivity |].
    destruct (is_blank c).
    { destruct cw as [|x cw]; simpl; rewrite IH; join_normal; reflexivity. }
    destruct (is_paren c).
    { destruct cw as [|x cw]; simpl; rewrite IH; join_normal; reflexivity. }
    destruct (next_delimits s && negb false); rewrite IH; join_normal; reflexivity.
Qed.

(** X2. The tokens of a text, written one after the other, are the text
    without the blanks that stand outside a string: the tokenizer drops
    such blanks and nothing else, and adds nothing. *)
Theorem tokens_keep_every_other_character s :
  join (tokenize s) = without_blanks s false.
Proof. unfold tokenize. now rewrite tokenize_loop_join. Qed.

Lemma paren_token c : is_paren c = true -> paren_or_word (String c EmptyString) = true.
Proof.
  destruct c as [[] [] [] [] [] [] [] []]; try discriminate; reflexivity.
Qed.

Lemma all_plain_add_char w c :
  all_plain w = true -> plain c = true -> all_plain (add_char w c) = true.
Proof.
  intros Hw Hc. unfold add_char. induction w as [|x w IH].
  - rewrite append_empty_l. simpl. now rewrite Hc.
  - rewrite append_cons. simpl in *. apply andb_prop in Hw as [Hx Hw].
    now rewrite Hx, IH.
Qed.

Lemma word_token w : nonempty w = true -> all_plain w = true -> paren_or_word w = true.
Proof.
  intros Hn Hw. unfold paren_or_word. rewrite Hn, Hw. now rewrite !orb_true_r.
Qed.

Lemma tokenize_loop_words s : forall ret cw,
  no_quote s = true -> all_plain cw = true ->
  Forall (fun t => paren_or_word t = true) ret ->
  Forall (fun t => paren_or_word t = true) (tokenize_loop s ret false cw).
Proof.
  induction s as [|c s IH]; intros ret cw Hs Hcw Hret.
  - simpl. destruct (nonempty cw) eqn:Hn; [| assumption].
    apply Forall_app; split; [assumption |]. repeat constructor. now apply word_token.
  - simpl in Hs. apply andb_prop in Hs as [Hq Hs]. apply negb_true_iff in Hq.
    simpl. rewrite Hq.
    destruct (is_blank c) eqn:Hb.
    { destruct (nonempty cw) eqn:Hn; simpl; apply IH; auto.
      apply Forall_app; split; [assumption |]. repeat constructor.
      now apply word_token. }
    destruct (is_paren c) eqn:Hp.
    { destruct (nonempty cw) eqn:Hn; simpl; apply IH; auto;
        repeat (apply Forall_app; split); auto; repeat constructor;
        try now apply paren_token. now apply word_token. }
    assert (plain c = true) as Hc by (unfold plain; now rewrite Hq, Hb, Hp).
    pose proof (all_plain_add_char cw c Hcw Hc) as Hw.
    destruct (next_delimits s && true); apply IH; auto.
    apply Forall_app; split; [assumption |]. repeat constructor.
    apply word_token; [apply Lexer.nonempty_add_char | assumption].
Qed.

(** X3. In a text without a single quote every token is a parenthesis or a
    word that holds no blank, no parenthesis and no quote. *)
Theorem tokens_of_quote_free_text s :
  no_quote s = true -> Forall (fun t => paren_or_word t = true) (tokenize s).
Proof. intros Hs. apply tokenize_loop_words; auto. Qed.

Lemma tokens_of_quote_free_text_witness :
  no_quote "(a  (b)c)" = true
  /\ Forall (fun t => paren_or_word t = true) (tokenize "(a  (b)c)").
Proof.
  split; [reflexivity |]. exact (tokens_of_quote_free_text "(a  (b)c)" eq_refl).
Defined.

(** Inside a string every character up to the next quote is accumulated. *)
Lemma tokenize_loop_in_string body : forall ret cw,
  no_quote body = true ->
  (forall rest,
      tokenize_loop (body +:+ String "'" rest) ret true cw
      = tokenize_loop rest (ret ++ [cw +:+ body +:+ "'"]) false EmptyString)
  /\ tokenize_loop body ret true cw
     = if nonempty (cw +:+ body) then ret ++ [cw +:+ body] else ret.
Proof.
  induction body as [|c body IH]; intros ret cw Hb.
  - split; [| now rewrite append_empty_r].
    intros rest. rewrite append_empty_l. reflexivity.
  - simpl in Hb. apply andb_prop in Hb as [Hq Hb]. apply negb_true_iff in Hq.
    destruct (IH ret (add_char cw c) Hb) as [IH1 IH2].
    assert (forall t, add_char cw c +:+ t = cw +:+ String c t) as Hadd.
    { intros t. unfold add_char.
      now rewrite append_assoc, append_cons, append_empty_l. }
    split.
    + intros rest. rewrite append_cons. simpl. rewrite Hq. rewrite IH1.
      now rewrite Hadd.
    + simpl. rewrite Hq. rewrite IH2. now rewrite Hadd.
Qed.

(** X4. A quote that is never closed swallows the rest of the text: from a
    point outside a string, the pending word, the quote and everything after
    it, blanks and parentheses included, come out as one last token. *)
Theorem unterminated_string_swallows_the_rest :
  forall rest ret cw,
    no_quote rest = true ->
    tokenize_loop (String "'" rest) ret false cw = ret ++ [cw +:+ String "'" rest].
Proof.
  intros rest ret cw Hrest. simpl.
  destruct (tokenize_loop_in_string rest ret (add_char cw "'") Hrest) as [_ ->].
  unfold add_char. rewrite append_assoc, append_cons, append_empty_l.
  destruct cw; reflexivity.
Qed.

Lemma unterminated_string_swallows_the_rest_witness :
  no_quote "b (c) d" = true
  /\ tokenize_loop "'b (c) d" ["("] false "a" = ["("] ++ ["a" +:+ "'b (c) d"].
Proof.
  split; [reflexivity |].
  exact (unterminated_string_swallows_the_rest "b (c) d" ["("] "a" eq_refl).
Defined.

(** X5. A string literal whose content holds no quote is one token,
    whatever blanks and parentheses it holds. *)
Theorem string_literal_is_one_token :
  forall body, no_quote body = true -> tokenize (literal body) = [literal body].
Proof.
  intros body Hb. unfold tokenize, literal. simpl.
  destruct (tokenize_loop_in_string body [] (add_char EmptyString "'") Hb) as [-> _].
  reflexivity.
Qed.

Lemma string_literal_is_one_token_witness :
  no_quote "a (b" = true /\ tokenize (literal "a (b") = [literal "a (b"].
Proof.
  split; [reflexivity |]. exact (string_literal_is_one_token "a (b" eq_refl).
Defined.

End Tokens.

(** ** Parser *)

Module Trees.

Lemma list_ascii_app (a b : string) :
  list_ascii_of_string (a +:+ b) = list_ascii_of_string a ++ list_ascii_of_string b.
Proof.
  induction a as [|x a IH]; [reflexivity |].
  rewrite Tokens.append_cons. simpl. now rewrite IH.
Qed.

Lemma literal_chars body :
  list_ascii_of_string (literal body)
  = "'"%char :: list_ascii_of_string body ++ ["'"%char].
Proof. unfold literal. simpl. now rewrite list_ascii_app. Qed.

Lemma strip_quoted l :
  Py.strip ("'"%char :: l ++ ["'"%char]) = "'"%char :: l ++ ["'"%char].
Proof.
  unfold Py.strip. change (Py.lstrip ("'"%char :: l ++ ["'"%char]))
    with ("'"%char :: l ++ ["'"%char]).
  assert (rev ("'"%char :: l ++ ["'"%char]) = "'"%char :: rev l ++ ["'"%char]) as Hrev.
  { simpl. now rewrite rev_unit. }
  rewrite Hrev. change (Py.lstrip ("'"%char :: rev l ++ ["'"%char]))
    with ("'"%char :: rev l ++ ["'"%char]).
  rewrite <- Hrev. apply rev_involutive.
Qed.

Lemma is_integer_literal body : is_integer (literal body) = false.
Proof.
  unfold is_integer, Py.int. now rewrite literal_chars, strip_quoted.
Qed.

Lemma is_float_literal body : is_float (literal body) = false.
Proof.
  unfold is_float, Py.float. rewrite literal_chars, strip_quoted.
  cbn [Py.drop_underscores].
  change (Py.is_underscore "'"%char) with false. cbv iota.
  destruct (Py.drop_underscores (list_ascii_of_string body ++ ["'"%char])
              (Some "'"%char)) as [r|]; reflexivity.
Qed.

Lemma is_string_literal body : is_string (literal body) = true.
Proof.
  unfold is_string. rewrite literal_chars.
  assert (rev ("'"%char :: list_ascii_of_string body ++ ["'"%char])
          = "'"%char :: rev (list_ascii_of_string body) ++ ["'"%char]) as ->.
  { simpl. now rewrite rev_unit. }
  simpl. rewrite length_app. simpl.
  now replace (length (list_ascii_of_string body) + 1)%nat
    with (S (length (list_ascii_of_string body))) by lia.
Qed.

Lemma strip_quotes_literal body : strip_quotes (literal body) = body.
Proof.
  unfold strip_quotes. rewrite literal_chars. simpl tl.
  rewrite removelast_last. apply string_of_list_ascii_of_string.
Qed.




(** A successful run of the loop does not look past the parenthesis that
    ends it. *)
Lemma do_parse_loop_extend fuel : forall ret tokens r rest,
  do_parse_loop fuel ret tokens = Ok (r, rest) ->
  forall more extra,
    do_parse_loop (more + fuel) ret (tokens ++ extra) = Ok (r, rest ++ extra).
Proof.
  induction fuel as [|fuel IH]; intros ret tokens r rest H more extra;
    [discriminate |].
  rewrite Nat.add_succ_r. destruct tokens as [|token tokens]; [discriminate |].
  cbn [do_parse_loop app] in H |- *.
  destruct (String.eqb token "(").
  { destruct (do_parse_loop fuel [] tokens) as [[sub left]| | |] eqn:Hsub;
      try discriminate.
    rewrite (IH _ _ _ _ Hsub). cbn [bind] in H |- *. now apply IH. }
  destruct (String.eqb token ")"); [now injection H as <- <- |].
  destruct (is_integer token).
  { destruct (Py.int token); [now apply IH | discriminate]. }
  destruct (is_float token).
  { destruct (Py.float token); [now apply IH | discriminate]. }
  destruct (is_string token); now apply IH.
Qed.

(** X7. [parse] stops at the parenthesis that closes the first expression:
    the tokens after it are ignored, and so is the text after a first
    expression that parses, once a blank or a parenthesis separates it. *)
Theorem parse_ignores_what_follows_the_first_expression :
  (forall tokens extra tree,
      parse tokens = Ok tree -> parse (tokens ++ extra) = Ok tree)
  /\ (forall s1 d s2 tree,
      in_string_after s1 false = false -> delimits d = true ->
      parse (tokenize s1) = Ok tree ->
      parse (tokenize (s1 +:+ String d s2)) = Ok tree).
Proof.
  assert (forall tokens extra tree,
      parse tokens = Ok tree -> parse (tokens ++ extra) = Ok tree) as Htokens.
  { intros [|token itert] extra tree H; [discriminate |].
    cbn [parse app] in H |- *.
    destruct (negb (String.eqb token "(")); [discriminate |].
    unfold do_parse in *.
    destruct (do_parse_loop (S (length itert)) [] itert) as [[ret left]| | |] eqn:Hp;
      try discriminate.
    replace (S (length (itert ++ extra))) with (length extra + S (length itert))%nat
      by (rewrite length_app; lia).
    now rewrite (do_parse_loop_extend _ _ _ _ _ Hp). }
  split; [exact Htokens |].
  intros s1 d s2 tree Hs Hd H. unfold tokenize at 1.
  rewrite Lexer.tokenize_loop_split by assumption.
  now apply Htokens.
Qed.

Lemma parse_ignores_what_follows_the_first_expression_witness :
  (parse ["("; "a"; ")"] = Ok (OList [OSymbol "a"])
   /\ parse (["("; "a"; ")"] ++ ["("; "b"]) = Ok (OList [OSymbol "a"]))
  /\ (in_string_after "(a)" false = false /\ delimits " " = true
      /\ parse (tokenize "(a)") = Ok (OList [OSymbol "a"])
      /\ parse (tokenize "(a) (b)") = Ok (OList [OSymbol "a"])).
Proof.
  destruct parse_ignores_what_follows_the_first_expression as [H1 H2].
  split.
  - split; [reflexivity |].
    exact (H1 ["("; "a"; ")"] ["("; "b"] (OList [OSymbol "a"]) eq_refl).
  - split; [reflexivity | split; [reflexivity | split; [reflexivity |]]].
    exact (H2 "(a)" " "%char "(b)" (OList [OSymbol "a"]) eq_refl eq_refl eq_refl).
Defined.






End Trees.

(** ** Evaluator *)

Section MoreEvaluatorProperties.

Variable host : operator.fn -> obj -> obj -> outcome obj.

(** *** The environment across an evaluation *)

Lemma eval_each_keeps ev : keeps_bindings ev ->
  forall exprs environment values environment',
    eval_each ev exprs environment = Ok (values, environment') ->
    dom environment ⊆ dom environment'.
Proof.
  intros Hev. induction exprs as [|arg exprs IH];
    intros environment values environment' H.
  - now injection H as _ <-.
  - cbn [eval_each] in H.
    destruct (ev arg environment) as [[v e1]| | |] eqn:Harg; try discriminate.
    cbn [bind] in H.
    destruct (eval_each ev exprs e1) as [[vs e2]| | |] eqn:Hrest; try discriminate.
    injection H as _ <-. apply Hev in Harg. apply IH in Hrest. set_solver.
Qed.

Lemma eval_begin_keeps ev : keeps_bindings ev ->
  forall exprs result environment value environment',
    eval_begin ev exprs result environment = Ok (value, environment') ->
    dom environment ⊆ dom environment'.
Proof.
  intros Hev. induction exprs as [|ex exprs IH];
    intros result environment value environment' H.
  - now injection H as _ <-.
  - cbn [eval_begin] in H.
    destruct (ev ex environment) as [[v e1]| | |] eqn:Hex; try discriminate.
    cbn [bind] in H. apply Hev in Hex. apply IH in H. set_solver.
Qed.

Lemma eval_call_keeps ev : keeps_bindings ev ->
  forall head rest environment value environment',
    eval_call host ev head rest environment = Ok (value, environment') ->
    dom environment ⊆ dom environment'.
Proof.
  intros Hev head rest environment value environment' H. unfold eval_call in H.
  destruct (ev head environment) as [[fn e1]| | |] eqn:Hhead; try discriminate.
  cbn [bind] in H.
  destruct (eval_each ev rest e1) as [[args e2]| | |] eqn:Hargs; try discriminate.
  cbn [bind] in H.
  destruct (apply_fn_with host ev fn args e2); try discriminate.
  injection H as _ <-. apply Hev in Hhead. apply (eval_each_keeps _ Hev) in Hargs.
  set_solver.
Qed.

Lemma eval_expr_with_keeps ev :
  keeps_bindings ev -> keeps_bindings (eval_expr_with host ev).
Proof.
  intros Hev expr environment value environment' H.
  destruct expr as [| | | | | |name|items| |];
    try (injection H as _ <-; reflexivity).
  - cbn [eval_expr_with] in H. destruct (environment !! name); [| discriminate].
    now injection H as _ <-.
  - destruct items as [|head rest]; [now injection H as _ <- |].
    pose proof (eval_call_keeps _ Hev head rest environment value environment')
      as Hcall.
    destruct head as [| | | | | |name| | |]; try (now apply Hcall).
    cbn [eval_expr_with] in H.
    destruct (String.eqb name "lambda").
    { destruct rest as [|? [|? ?]]; try discriminate. now injection H as _ <-. }
    destruct (String.eqb name "if").
    { destruct rest as [|condition [|then_clause more]]; try discriminate.
      destruct (ev condition environment) as [[c e1]| | |] eqn:Hc; try discriminate.
      cbn [bind] in H. apply Hev in Hc.
      assert (dom e1 ⊆ dom environment'); [| set_solver].
      destruct c as [| |[|]| | | | | | |]; try (now apply Hev in H).
      destruct more as [|e [|? ?]]; try (now injection H as _ <-).
      destruct e; try (now apply Hev in H); now injection H as _ <-. }
    destruct (String.eqb name "define").
    { destruct rest as [|target [|value_expr [|? ?]]]; try discriminate.
      destruct (value_of target) as [key| | |]; try discriminate.
      cbn [bind] in H.
      destruct (ev value_expr environment) as [[v e1]| | |] eqn:Hv; try discriminate.
      cbn [bind] in H. injection H as _ <-. apply Hev in Hv.
      rewrite dom_insert_L. set_solver. }
    destruct (String.eqb name "begin"); [now apply (eval_begin_keeps _ Hev) in H |].
    destruct (String.eqb name "quote").
    { destruct rest as [|? [|? ?]]; try discriminate. now injection H as _ <-. }
    now apply Hcall.
Qed.

Lemma eval_expr_keeps fuel : keeps_bindings (eval_expr host fuel).
Proof.
  induction fuel as [|fuel IH]; [discriminate |].
  apply (eval_expr_with_keeps _ IH).
Qed.

(** X10. No evaluation removes a binding: every name bound before
    [eval_expr] is still bound in the environment it leaves. *)
Theorem evaluation_never_unbinds_a_name :
  forall fuel expr environment value environment' name,
    eval_expr host fuel expr environment = Ok (value, environment') ->
    is_Some (environment !! name) -> is_Some (environment' !! name).
Proof.
  intros fuel expr environment value environment' name H Hname.
  apply eval_expr_keeps in H. apply elem_of_dom. apply elem_of_dom in Hname.
  set_solver.
Qed.

Lemma eval_each_frames ev : frames ev ->
  forall exprs environment values environment',
    forallb no_define exprs = true ->
    eval_each ev exprs environment = Ok (values, environment') ->
    environment' = environment.
Proof.
  intros Hev. induction exprs as [|arg exprs IH];
    intros environment values environment' Hno H.
  - now injection H as _ <-.
  - cbn [forallb] in Hno. apply andb_prop in Hno as [Harg Hno].
    cbn [eval_each] in H.
    destruct (ev arg environment) as [[v e1]| | |] eqn:Hv; try discriminate.
    cbn [bind] in H. apply (Hev _ _ _ _ Harg) in Hv. subst e1.
    destruct (eval_each ev exprs environment) as [[vs e2]| | |] eqn:Hrest;
      try discriminate.
    injection H as _ <-. now apply (IH _ _ _ Hno Hrest).
Qed.

Lemma eval_begin_frames ev : frames ev ->
  forall exprs result environment value environment',
    forallb no_define exprs = true ->
    eval_begin ev exprs result environment = Ok (value, environment') ->
    environment' = environment.
Proof.
  intros Hev. induction exprs as [|ex exprs IH];
    intros result environment value environment' Hno H.
  - now injection H as _ <-.
  - cbn [forallb] in Hno. apply andb_prop in Hno as [Hex Hno].
    cbn [eval_begin] in H.
    destruct (ev ex environment) as [[v e1]| | |] eqn:Hv; try discriminate.
    cbn [bind] in H. apply (Hev _ _ _ _ Hex) in Hv. subst e1.
    now apply (IH _ _ _ _ Hno H).
Qed.

Lemma eval_call_frames ev : frames ev ->
  forall head rest environment value environment',
    no_define head = true -> forallb no_define rest = true ->
    eval_call host ev head rest environment = Ok (value, environment') ->
    environment' = environment.
Proof.
  intros Hev head rest environment value environment' Hhead Hrest H.
  unfold eval_call in H.
  destruct (ev head environment) as [[fn e1]| | |] eqn:Hfn; try discriminate.
  cbn [bind] in H. apply (Hev _ _ _ _ Hhead) in Hfn. subst e1.
  destruct (eval_each ev rest environment) as [[args e2]| | |] eqn:Hargs;
    try discriminate.
  cbn [bind] in H. apply (eval_each_frames _ Hev _ _ _ _ Hrest) in Hargs. subst e2.
  destruct (apply_fn_with host ev fn args environment); try discriminate.
  now injection H as _ <-.
Qed.

Lemma eval_expr_with_frames ev : frames ev -> frames (eval_expr_with host ev).
Proof.
  intros Hev expr environment value environment' Hno H.
  destruct expr as [| | | | | |name|items| |];
    try (injection H as _ <-; reflexivity).
  - cbn [eval_expr_with] in H. destruct (environment !! name); [| discriminate].
    now injection H as _ <-.
  - destruct items as [|head rest]; [now injection H as _ <- |].
    cbn [no_define forallb] in Hno. apply andb_prop in Hno as [Hhead Hrest].
    pose proof (eval_call_frames _ Hev head rest environment value environment'
                  Hhead Hrest) as Hcall.
    destruct head as [| | | | | |name| | |]; try (now apply Hcall).
    cbn [eval_expr_with] in H. cbn [no_define] in Hhead.
    apply negb_true_iff in Hhead.
    destruct (String.eqb name "lambda").
    { destruct rest as [|? [|? ?]]; try discriminate. now injection H as _ <-. }
    destruct (String.eqb name "if").
    { destruct rest as [|condition [|then_clause more]]; try discriminate.
      cbn [forallb] in Hrest.
      apply andb_prop in Hrest as [Hc Hrest]. apply andb_prop in Hrest as [Ht Hmore].
      destruct (ev condition environment) as [[c e1]| | |] eqn:Hcv; try discriminate.
      cbn [bind] in H. apply (Hev _ _ _ _ Hc) in Hcv. subst e1.
      destruct c as [| |[|]| | | | | | |]; try (now apply (Hev _ _ _ _ Ht) in H).
      destruct more as [|e [|? ?]]; try (now injection H as _ <-).
      cbn [forallb] in Hmore. apply andb_prop in Hmore as [He _].
      destruct e; try (now apply (Hev _ _ _ _ He) in H); now injection H as _ <-. }
    rewrite Hhead in H.
    destruct (String.eqb name "begin");
      [now apply (eval_begin_frames _ Hev _ _ _ _ _ Hrest) in H |].
    destruct (String.eqb name "quote").
    { destruct rest as [|? [|? ?]]; try discriminate. now injection H as _ <-. }
    now apply Hcall.
Qed.

(** X11. Only [define] changes the environment: an expression in which the
    Symbol [define] does not occur leaves the environment exactly as it was,
    whatever closures it calls. *)
Theorem only_define_changes_the_environment :
  forall fuel expr environment value environment',
    no_define expr = true ->
    eval_expr host fuel expr environment = Ok (value, environment') ->
    environment' = environment.
Proof.
  induction fuel as [|fuel IH]; [discriminate |].
  apply (eval_expr_with_frames _ IH).
Qed.

(** *** begin, define and the arguments of a call *)

Lemma eval_begin_app ev : forall a b result environment,
  eval_begin ev (a ++ b) result environment
  = do (result', environment') <- eval_begin ev a result environment in
    eval_begin ev b result' environment'.
Proof.
  induction a as [|ex a IH]; intros b result environment; [reflexivity |].
  cbn [app eval_begin].
  destruct (ev ex environment) as [[r e1]| | |]; try reflexivity.
  cbn [bind]. apply IH.
Qed.

(** X12. [begin] evaluates its expressions from left to right, each in the
    environment the previous one left, and returns the value of the last:
    a sequence with one more expression is the sequence, then that
    expression. Without expressions it returns the null value. *)
Theorem begin_runs_in_sequence :
  (forall fuel exprs e environment,
      eval_expr host (S fuel) (form "begin" (exprs ++ [e])) environment
      = do (_, environment') <- eval_expr host (S fuel) (form "begin" exprs)
                                  environment in
        eval_expr host fuel e environment')
  /\ (forall fuel environment,
      eval_expr host (S fuel) (form "begin" []) environment = Ok (ONone, environment)).
Proof.
  split; [| reflexivity].
  intros fuel exprs e environment.
  cbn [form eval_expr eval_expr_with String.eqb Ascii.eqb Bool.eqb].
  rewrite eval_begin_app.
  destruct (eval_begin (eval_expr host fuel) exprs ONone environment)
    as [[r e1]| | |]; try reflexivity.
  cbn [bind eval_begin].
  destruct (eval_expr host fuel e e1) as [[? ?]| | |]; reflexivity.
Qed.

(** X13. A name is read back as it was defined: [(begin (define name e)
    name)] returns the value of [e] and leaves [name] bound to it. *)
Theorem define_then_lookup :
  forall fuel environment name e value environment',
    eval_expr host fuel e environment = Ok (value, environment') ->
    eval_expr host (S (S fuel))
      (form "begin" [form "define" [OSymbol name; e]; OSymbol name]) environment
    = Ok (value, <[name := value]> environment').
Proof.
  intros fuel environment name e value environment' H.
  cbn [form eval_expr eval_expr_with String.eqb Ascii.eqb Bool.eqb eval_begin
       value_of bind].
  change (eval_expr_with host (eval_expr host ?f)) with (eval_expr host (S f)).
  cbn [eval_expr] in H |- *. rewrite H. cbn [bind].
  now rewrite lookup_insert_eq.
Qed.

Lemma eval_each_app ev : forall a b environment,
  eval_each ev (a ++ b) environment
  = do (values, environment1) <- eval_each ev a environment in
    do (values', environment2) <- eval_each ev b environment1 in
    Ok (values ++ values', environment2).
Proof.
  induction a as [|arg a IH]; intros b environment.
  - cbn [app eval_each bind].
    destruct (eval_each ev b environment) as [[? ?]| | |]; reflexivity.
  - cbn [app eval_each].
    destruct (ev arg environment) as [[v e1]| | |]; try reflexivity.
    cbn [bind]. rewrite IH.
    destruct (eval_each ev a e1) as [[vs e2]| | |]; try reflexivity.
    cbn [bind].
    destruct (eval_each ev b e2) as [[vs' e3]| | |]; reflexivity.
Qed.

(** X14. The arguments of a call are evaluated from left to right, each in
    the environment the previous one left, and [list] returns their values
    in that order together with what they defined. *)
Theorem arguments_are_evaluated_in_order :
  (forall fuel a b environment,
      eval_each (eval_expr host fuel) (a ++ b) environment
      = do (values, environment1) <- eval_each (eval_expr host fuel) a environment in
        do (values', environment2) <- eval_each (eval_expr host fuel) b environment1 in
        Ok (values ++ values', environment2))
  /\ (forall fuel args environment,
      environment !! "list" = Some (OBuiltin MakeList) ->
      eval_expr host (S (S fuel)) (OList (OSymbol "list" :: args)) environment
      = do (values, environment') <- eval_each (eval_expr host (S fuel)) args
                                       environment in
        Ok (OList values, environment')).
Proof.
  split; [intros; apply eval_each_app |].
  intros fuel args environment Hlist.
  cbn [eval_expr eval_expr_with String.eqb Ascii.eqb Bool.eqb].
  unfold eval_call. cbn [eval_expr_with]. rewrite Hlist. cbn [bind].
  change (eval_expr_with host (eval_expr host fuel)) with (eval_expr host (S fuel)).
  destruct (eval_each (eval_expr host (S fuel)) args environment) as [[? ?]| | |];
    reflexivity.
Qed.

(** *** String literals *)

(** X15. A string literal whose content holds no quote evaluates to that
    content, character for character, whatever blanks and parentheses it
    holds: the text goes through [tokenize], [is_string], [do_parse] and
    [eval_expr] unchanged. *)
Theorem string_literal_evaluates_to_its_content :
  forall body extra environment,
    no_quote body = true ->
    parse (tokenize ("(begin " +:+ literal body +:+ ")"))
    = Ok (form "begin" [OString body])
    /\ run host (extra + 2) ("(begin " +:+ literal body +:+ ")") environment
       = Ok (OStr body, environment).
Proof.
  intros body extra environment Hbody.
  assert (tokenize ("(begin " +:+ literal body +:+ ")")
          = ["("; "begin"; literal body; ")"]) as Htokens.
  { unfold literal. rewrite !Tokens.append_cons, Tokens.append_empty_l.
    rewrite Tokens.append_assoc.
    unfold tokenize. simpl tokenize_loop.
    change ("'" +:+ ")") with "')".
    change (add_char (add_char (add_char (add_char (add_char "" "b") "e") "g") "i")
              "n") with "begin".
    destruct (Tokens.tokenize_loop_in_string body ["("; "begin"]
                (add_char EmptyString "'") Hbody) as [-> _].
    reflexivity. }
  assert (parse (tokenize ("(begin " +:+ literal body +:+ ")"))
          = Ok (form "begin" [OString body])) as Hparse.
  { rewrite Htokens. cbn [parse String.eqb Ascii.eqb Bool.eqb negb length].
    cbv iota. unfold do_parse. cbn [do_parse_loop].
    change (String.eqb "begin" "(") with false.
    change (String.eqb "begin" ")") with false.
    change (is_integer "begin") with false. change (is_float "begin") with false.
    change (is_string "begin") with false.
    change (String.eqb (literal body) "(") with false.
    change (String.eqb (literal body) ")") with false.
    change (String.eqb ")" "(") with false. change (String.eqb ")" ")") with true.
    cbv iota.
    now rewrite Trees.is_integer_literal, Trees.is_float_literal,
      Trees.is_string_literal, Trees.strip_quotes_literal. }
  split; [exact Hparse |].
  rewrite run_more_fuel; unfold run; rewrite Hparse; [reflexivity | discriminate].
Qed.

(** *** What cannot be applied *)

Lemma bind_parameters_nested params : forall args environment,
  length args = length params ->
  existsb is_list params = true ->
  bind_parameters params args environment = Raise TypeError.
Proof.
  induction params as [|param params IH]; intros args environment Hlen Hex;
    [discriminate |].
  destruct args as [|arg args]; [discriminate |].
  cbn [existsb] in Hex. cbn [bind_parameters].
  destruct param; try reflexivity;
    apply IH; (simpl in Hlen; lia) || exact Hex.
Qed.

(** X16. [apply_fn] on a value that is neither a callable of the base
    environment nor a closure fails with the non-function failure. A
    closure whose parameters are not given as a list, or hold a nested
    list, lets a [TypeError] of the host escape when it is applied, before
    its body is evaluated. *)
Theorem what_cannot_be_applied :
  (forall fuel fn args environment,
      applicable fn = false ->
      apply_fn host fuel fn args environment = Fail (CannotApplyNonFunction fn))
  /\ (forall fuel arguments code args environment,
      sized arguments = false ->
      apply_fn host fuel (OLambda arguments code) args environment = Raise TypeError)
  /\ (forall fuel params code args environment,
      length args = length params ->
      existsb is_list params = true ->
      apply_fn host fuel (OLambda (OList params) code) args environment
      = Raise TypeError).
Proof.
  split; [| split].
  - intros fuel fn args environment Hfn. destruct fn; try discriminate; reflexivity.
  - intros fuel arguments code args environment Hs.
    destruct arguments; try discriminate; reflexivity.
  - intros fuel params code args environment Hlen Hex.
    unfold apply_fn, apply_fn_with. cbn [items_of bind].
    apply Nat.eqb_eq in Hlen. rewrite Hlen. cbn [negb].
    rewrite bind_parameters_nested; [reflexivity | now apply Nat.eqb_eq | exact Hex].
Qed.

(** *** Built-in functions on lists *)

(** X17. On lists [car], [cdr] and [cons] are the head, the tail and the
    constructor: [car] and [cdr] undo [cons], [car] of the empty list is
    the null value, [cdr] of a list is its tail, and a list that is not
    empty is the [cons] of its [car] and its [cdr]. *)
Theorem list_laws :
  (forall x items,
      call_builtin host Cons [x; OList items] = Ok (OList (x :: items))
      /\ call_builtin host Car [OList (x :: items)] = Ok x
      /\ call_builtin host Cdr [OList (x :: items)] = Ok (OList items))
  /\ (forall items,
      call_builtin host Car [OList items] = Ok (hd ONone items)
      /\ call_builtin host Cdr [OList items] = Ok (OList (tl items)))
  /\ (forall items,
      items <> [] ->
      (do head <- call_builtin host Car [OList items] in
       do tail <- call_builtin host Cdr [OList items] in
       call_builtin host Cons [head; tail])
      = Ok (OList items)).
Proof.
  split; [| split].
  - intros x items. repeat split. destruct items; reflexivity.
  - intros [|x [|y items]]; split; reflexivity.
  - intros [|x [|y items]] H; [now contradiction H | reflexivity | reflexivity].
Qed.

Lemma append_lists lists :
  append (map OList lists) = Ok (concat lists).
Proof.
  induction lists as [|items lists IH]; [reflexivity |].
  cbn [map append items_of bind]. now rewrite IH.
Qed.

(** X18. [append] of any number of lists is their concatenation, in order;
    its length is the sum of their lengths, and without arguments it is the
    empty list. *)
Theorem append_concatenates :
  forall lists,
    call_builtin host Append (map OList lists) = Ok (OList (concat lists))
    /\ (do items <- call_builtin host Append (map OList lists) in
        call_builtin host Len [items])
       = Ok (OInt (Z.of_nat (list_sum (map (@length obj) lists)))).
Proof.
  intros lists.
  assert (call_builtin host Append (map OList lists) = Ok (OList (concat lists))) as H.
  { unfold call_builtin. destruct (map OList lists) eqn:Hl;
      rewrite <- ?Hl, append_lists; reflexivity. }
  split; [exact H |]. rewrite H. cbn [bind call_builtin len].
  now rewrite length_concat.
Qed.

(** X19. [car] returns the null value for every argument that is false in
    a test of the host (the null value, false, 0, 0.0, the empty text and
    the empty list) and raises a [TypeError] for any other argument without
    items; [cdr] raises a [TypeError] for every argument without a length,
    the null value included. *)
Theorem car_tolerates_what_cdr_refuses :
  (forall x, truthy x = false -> call_builtin host Car [x] = Ok ONone)
  /\ (forall x, truthy x = true -> sized x = false ->
      call_builtin host Car [x] = Raise TypeError)
  /\ (forall x, sized x = false -> call_builtin host Cdr [x] = Raise TypeError).
Proof.
  split; [| split].
  - intros x Hx. cbn [call_builtin]. unfold car. now rewrite Hx.
  - intros x Hx Hs. cbn [call_builtin]. unfold car. rewrite Hx.
    destruct x; try discriminate; reflexivity.
  - intros x Hs. cbn [call_builtin]. destruct x; try discriminate; reflexivity.
Qed.

End MoreEvaluatorProperties.

(** ** The further theorems at concrete inputs *)

Lemma evaluation_never_unbinds_a_name_witness :
  eval_expr integer_operator 2 (form "define" [OSymbol "x"; OInt 1]) null_environment
  = Ok (OInt 1, <["x" := OInt 1]> null_environment)
  /\ is_Some (null_environment !! "null?")
  /\ is_Some ((<["x" := OInt 1]> null_environment : env) !! "null?").
Proof.
  assert (is_Some (null_environment !! "null?")) as H by (eexists; reflexivity).
  split; [reflexivity | split; [exact H |]].
  exact (evaluation_never_unbinds_a_name integer_operator 2%nat
           (form "define" [OSymbol "x"; OInt 1]) null_environment (OInt 1)
           (<["x" := OInt 1]> null_environment) "null?" eq_refl H).
Defined.

Lemma only_define_changes_the_environment_witness :
  no_define (OList [OSymbol "f"; OInt 1]) = true
  /\ eval_expr integer_operator 3 (OList [OSymbol "f"; OInt 1]) closure_environment
     = Ok (OInt 1, closure_environment)
  /\ closure_environment = closure_environment.
Proof.
  split; [reflexivity | split; [reflexivity |]].
  exact (only_define_changes_the_environment integer_operator 3%nat
           (OList [OSymbol "f"; OInt 1]) closure_environment (OInt 1)
           closure_environment eq_refl eq_refl).
Defined.

Lemma define_then_lookup_witness :
  eval_expr integer_operator 1 (OInt 1) ∅ = Ok (OInt 1, ∅)
  /\ eval_expr integer_operator 3
       (form "begin" [form "define" [OSymbol "x"; OInt 1]; OSymbol "x"]) ∅
     = Ok (OInt 1, <["x" := OInt 1]> ∅).
Proof.
  split; [reflexivity |].
  exact (define_then_lookup integer_operator 1%nat ∅ "x" (OInt 1) (OInt 1) ∅
           eq_refl).
Defined.

Lemma arguments_are_evaluated_in_order_witness :
  list_environment !! "list" = Some (OBuiltin MakeList)
  /\ eval_expr integer_operator 3
       (OList (OSymbol "list" :: [form "define" [OSymbol "x"; OInt 1]; OSymbol "x"]))
       list_environment
     = do (values, environment') <-
         eval_each (eval_expr integer_operator 2)
           [form "define" [OSymbol "x"; OInt 1]; OSymbol "x"] list_environment in
       Ok (OList values, environment').
Proof.
  split; [reflexivity |].
  exact (proj2 (arguments_are_evaluated_in_order integer_operator) 1%nat
           [form "define" [OSymbol "x"; OInt 1]; OSymbol "x"] list_environment
           eq_refl).
Defined.

Lemma string_literal_evaluates_to_its_content_witness :
  no_quote "a (b" = true
  /\ parse (tokenize ("(begin " +:+ literal "a (b" +:+ ")"))
     = Ok (form "begin" [OString "a (b"])
  /\ run integer_operator (0 + 2) ("(begin " +:+ literal "a (b" +:+ ")") ∅
     = Ok (OStr "a (b", ∅).
Proof.
  split; [reflexivity |].
  exact (string_literal_evaluates_to_its_content integer_operator "a (b" 0%nat ∅
           eq_refl).
Defined.

Lemma what_cannot_be_applied_witness :
  (applicable (OInt 1) = false
   /\ apply_fn integer_operator 1 (OInt 1) [OInt 2] ∅
      = Fail (CannotApplyNonFunction (OInt 1)))
  /\ (sized (OSymbol "x") = false
      /\ apply_fn integer_operator 1 (OLambda (OSymbol "x") (OSymbol "x")) [OInt 2] ∅
         = Raise TypeError)
  /\ (length [OInt 2] = length [OList [OSymbol "a"; OSymbol "b"]]
      /\ existsb is_list [OList [OSymbol "a"; OSymbol "b"]] = true
      /\ apply_fn integer_operator 1
           (OLambda (OList [OList [OSymbol "a"; OSymbol "b"]]) (OSymbol "a"))
           [OInt 2] ∅
         = Raise TypeError).
Proof.
  destruct (what_cannot_be_applied integer_operator) as (H1 & H2 & H3).
  split; [| split].
  - split; [reflexivity |]. exact (H1 1%nat (OInt 1) [OInt 2] ∅ eq_refl).
  - split; [reflexivity |].
    exact (H2 1%nat (OSymbol "x") (OSymbol "x") [OInt 2] ∅ eq_refl).
  - split; [reflexivity | split; [reflexivity |]].
    exact (H3 1%nat [OList [OSymbol "a"; OSymbol "b"]] (OSymbol "a") [OInt 2] ∅
             eq_refl eq_refl).
Defined.

Lemma list_laws_witness :
  [OInt 1; OInt 2] <> []
  /\ (do head <- call_builtin integer_operator Car [OList [OInt 1; OInt 2]] in
      do tail <- call_builtin integer_operator Cdr [OList [OInt 1; OInt 2]] in
      call_builtin integer_operator Cons [head; tail])
     = Ok (OList [OInt 1; OInt 2]).
Proof.
  assert ([OInt 1; OInt 2] <> []) as H by discriminate.
  split; [exact H |].
  exact (proj2 (proj2 (list_laws integer_operator)) [OInt 1; OInt 2] H).
Defined.

Lemma car_tolerates_what_cdr_refuses_witness :
  (truthy (OInt 0) = false /\ call_builtin integer_operator Car [OInt 0] = Ok ONone)
  /\ (truthy (OInt 5) = true /\ sized (OInt 5) = false
      /\ call_builtin integer_operator Car [OInt 5] = Raise TypeError)
  /\ (sized ONone = false
      /\ call_builtin integer_operator Cdr [ONone] = Raise TypeError).
Proof.
  destruct (car_tolerates_what_cdr_refuses integer_operator) as (H1 & H2 & H3).
  split; [| split].
  - split; [reflexivity |]. exact (H1 (OInt 0) eq_refl).
  - split; [reflexivity | split; [reflexivity |]]. exact (H2 (OInt 5) eq_refl eq_refl).
  - split; [reflexivity |]. exact (H3 ONone eq_refl).
Defined.
